(** * pangu.py: paranoid text spacing

    A shallow embedding of [src/pangu.py] (the [spacing_text] function and
    the fifteen compiled patterns it uses) together with the properties
    stated for it.

    Text is a sequence of Unicode code points, as a Python 3 [str] is; the
    Python 2 branch ([IS_PY2]) only decodes bytes into such a sequence and
    is not modelled.  The patterns are translated constructor by
    constructor into a small regular-expression syntax, and [re.sub] is a
    backtracking matcher with the priorities of Python's [re] module:
    leftmost match, greedy quantifiers longest first, lazy quantifiers
    shortest first, non-overlapping matches scanned left to right. *)

From Stdlib Require Import ZArith List Bool Lia ZifyBool.
Import ListNotations.
Local Open Scope Z_scope.

Set Implicit Arguments.

(** ** Text *)

Definition str := list Z.

Fixpoint text_eqb (s t : str) : bool :=
  match s, t with
  | [], [] => true
  | a :: s', b :: t' => (a =? b) && text_eqb s' t'
  | _, _ => false
  end.

(** Whitespace as Python 3 sees it, both for [\s] in a [str] pattern and
    for [str.strip()] without argument. *)
Definition isspace (c : Z) : bool :=
  ((0x09 <=? c) && (c <=? 0x0d)) || ((0x1c <=? c) && (c <=? 0x20)) ||
  (c =? 0x85) || (c =? 0xa0) || (c =? 0x1680) ||
  ((0x2000 <=? c) && (c <=? 0x200a)) ||
  (c =? 0x2028) || (c =? 0x2029) || (c =? 0x202f) || (c =? 0x205f) ||
  (c =? 0x3000).

Definition nonspace (c : Z) : bool := negb (isspace c).

Fixpoint lstrip (s : str) : str :=
  match s with
  | [] => []
  | c :: s' => if isspace c then lstrip s' else s
  end.

Definition rstrip (s : str) : str := rev (lstrip (rev s)).

Definition strip (s : str) : str := rstrip (lstrip s).

(** ** Character classes *)

Inductive item : Type :=
| Ch (c : Z)
| Range (lo hi : Z).

Definition in_item (i : item) (c : Z) : bool :=
  match i with
  | Ch d => c =? d
  | Range lo hi => (lo <=? c) && (c <=? hi)
  end.

Definition in_cls (l : list item) (c : Z) : bool := existsb (fun i => in_item i c) l.

(** ** Patterns *)

Inductive atom : Type :=
| Set_ (l : list item)   (* [...] *)
| Lit (c : Z)            (* one literal character *)
| Dot                    (* .  : anything but a newline *)
| Space                  (* \s *)
| NonSpace.              (* \S *)

Definition atom_match (a : atom) (c : Z) : bool :=
  match a with
  | Set_ l => in_cls l c
  | Lit d => c =? d
  | Dot => negb (c =? 0x0a)
  | Space => isspace c
  | NonSpace => nonspace c
  end.

Inductive regex : Type :=
| Atom (a : atom)
| Rep (a : atom) (min : nat) (greedy : bool)
| Cat (r1 r2 : regex)
| Group (n : nat) (r : regex).

Definition Plus (a : atom) : regex := Rep a 1 true.       (* a+  *)
Definition Star (a : atom) : regex := Rep a 0 true.       (* a*  *)
Definition PlusLazy (a : atom) : regex := Rep a 1 false.  (* a+? *)
Definition StarLazy (a : atom) : regex := Rep a 0 false.  (* a*? *)

Declare Scope regex_scope.
Delimit Scope regex_scope with re.
Bind Scope regex_scope with regex.
Infix ">>" := Cat (at level 60, right associativity) : regex_scope.

(** Captured groups, most recent first. *)
Definition caps := list (nat * str).

Fixpoint group (cs : caps) (n : nat) : str :=
  match cs with
  | [] => []
  | (m, x) :: cs' => if Nat.eqb m n then x else group cs' n
  end.

(** ** The backtracking matcher

    Continuation-passing: [k matched rest cs] is what remains to be
    matched after this piece; [None] makes the piece try its next
    alternative. *)

Section Matcher.
Variable R : Type.

Definition orelse (x y : option R) : option R :=
  match x with Some _ => x | None => y end.

Fixpoint rep_greedy (a : atom) (min : nat) (s : str)
         (k : str -> str -> option R) : option R :=
  let stop := match min with O => k [] s | S _ => None end in
  match s with
  | c :: s' =>
      if atom_match a c
      then orelse (rep_greedy a (pred min) s' (fun x rest => k (c :: x) rest)) stop
      else stop
  | [] => stop
  end.

Fixpoint rep_lazy (a : atom) (min : nat) (s : str)
         (k : str -> str -> option R) : option R :=
  let more :=
    match s with
    | c :: s' =>
        if atom_match a c
        then rep_lazy a (pred min) s' (fun x rest => k (c :: x) rest)
        else None
    | [] => None
    end in
  match min with
  | O => orelse (k [] s) more
  | S _ => more
  end.

Fixpoint run (r : regex) (s : str) (cs : caps)
         (k : str -> str -> caps -> option R) : option R :=
  match r with
  | Atom a =>
      match s with
      | c :: s' => if atom_match a c then k [c] s' cs else None
      | [] => None
      end
  | Rep a min true => rep_greedy a min s (fun x rest => k x rest cs)
  | Rep a min false => rep_lazy a min s (fun x rest => k x rest cs)
  | Cat r1 r2 =>
      run r1 s cs (fun x1 s1 cs1 =>
      run r2 s1 cs1 (fun x2 s2 cs2 => k (x1 ++ x2) s2 cs2))
  | Group n r1 => run r1 s cs (fun x rest cs' => k x rest ((n, x) :: cs'))
  end.
End Matcher.

(** A match anchored at the start of [s]: the matched text, what follows
    it, and the groups. *)
Definition match_at (re : regex) (s : str) : option (str * str * caps) :=
  run re s [] (fun x rest cs => Some (x, rest, cs)).

(** ** Replacement templates and [re.sub] *)

Inductive titem : Type :=
| Ref (n : nat)    (* \n *)
| Txt (c : Z).     (* a literal character *)

Definition template := list titem.

Fixpoint expand (tpl : template) (cs : caps) : str :=
  match tpl with
  | [] => []
  | Ref n :: tpl' => group cs n ++ expand tpl' cs
  | Txt c :: tpl' => c :: expand tpl' cs
  end.

(** [sub_from re tpl skip s]: the scan of [re.sub], with [skip] characters
    of [s] still belonging to the previous match.  A match found at a
    position is replaced and the scan resumes right after it; otherwise the
    character is copied.  After an empty match the replacement is followed
    by the character and the scan moves on; no pattern of this module
    matches the empty text ([patterns_consume] below). *)
Fixpoint sub_from (re : regex) (tpl : template) (skip : nat) (s : str) : str :=
  match skip with
  | S n =>
      match s with
      | [] => []
      | _ :: s' => sub_from re tpl n s'
      end
  | O =>
      match match_at re s with
      | Some (x, _, cs) =>
          expand tpl cs ++
          match x, s with
          | _ :: x', _ :: s' => sub_from re tpl (length x') s'
          | [], c :: s' => c :: sub_from re tpl 0 s'
          | _, [] => []
          end
      | None =>
          match s with
          | [] => []
          | c :: s' => c :: sub_from re tpl 0 s'
          end
      end
  end.

Definition sub (re : regex) (tpl : template) (s : str) : str :=
  sub_from re tpl 0 s.

(** ** The patterns of pangu.py *)

(** The CJK class, written out identically in twelve of the patterns. *)
Definition CJK : list item :=
  [Range 0x2e80 0x2eff; Range 0x2f00 0x2fdf; Range 0x3040 0x309f;
   Range 0x30a0 0x30ff; Range 0x3100 0x312f; Range 0x3200 0x32ff;
   Range 0x3400 0x4dbf; Range 0x4e00 0x9fff; Range 0xf900 0xfaff].

(** The class [QUOTE_CJK_RE] carries in its place. *)
Definition CJK_OF_QUOTE_CJK : list item :=
  [Range 0x3040 0x312f; Range 0x3200 0x32ff; Range 0x3400 0x4dbf;
   Range 0x4e00 0x9fff; Range 0xf900 0xfaff].

Definition QUOTE : list item := [Ch 0x22; Ch 0x27].                (* double and single quote *)

Definition QUOTE_OPEN : list item :=                               (* quotes, ( [ { < and U+201C *)
  [Ch 0x22; Ch 0x27; Ch 0x28; Ch 0x5b; Ch 0x7b; Ch 0x3c; Ch 0x201c].
Definition QUOTE_CLOSE : list item :=                              (* quotes, ) ] } > and U+201D *)
  [Ch 0x22; Ch 0x27; Ch 0x29; Ch 0x5d; Ch 0x7d; Ch 0x3e; Ch 0x201d].

Definition LETTER : list item := [Range 0x41 0x5a; Range 0x61 0x7a].   (* [A-Za-z] *)
Definition ALNUM : list item :=                                        (* [A-Za-z0-9] *)
  [Range 0x41 0x5a; Range 0x61 0x7a; Range 0x30 0x39].

Definition OPERATOR : list item :=                                 (* + - * / = & \ | < > *)
  [Ch 0x2b; Ch 0x2d; Ch 0x2a; Ch 0x2f; Ch 0x3d; Ch 0x26; Ch 0x5c; Ch 0x7c;
   Ch 0x3c; Ch 0x3e].

Definition BRACKET_OPEN : list item :=                             (* ( [ { < and U+201C *)
  [Ch 0x28; Ch 0x5b; Ch 0x7b; Ch 0x3c; Ch 0x201c].
Definition BRACKET_CLOSE : list item :=                            (* ) ] } > and U+201D *)
  [Ch 0x29; Ch 0x5d; Ch 0x7d; Ch 0x3e; Ch 0x201d].
Definition BRACKET_AFTER_CJK : list item :=                        (* ( [ { < U+201C and > *)
  [Ch 0x28; Ch 0x5b; Ch 0x7b; Ch 0x3c; Ch 0x201c; Ch 0x3e].
Definition BRACKET_BEFORE_CJK : list item :=                       (* ) ] } > U+201D and < *)
  [Ch 0x29; Ch 0x5d; Ch 0x7d; Ch 0x3e; Ch 0x201d; Ch 0x3c].

Definition SYMBOL : list item :=                                   (* ~ ! ; : , . ? and U+2026 *)
  [Ch 0x7e; Ch 0x21; Ch 0x3b; Ch 0x3a; Ch 0x2c; Ch 0x2e; Ch 0x3f; Ch 0x2026].

(** The second class of [CJK_ANS_RE]. *)
Definition ANS_AFTER_CJK : list item :=
  [Range 0x41 0x5a; Range 0x61 0x7a; Range 0x30 0x39;
   Ch 0x60; Ch 0x24; Ch 0x25; Ch 0x5e; Ch 0x26; Ch 0x2a; Ch 0x2d; Ch 0x3d;
   Ch 0x2b; Ch 0x5c; Ch 0x7c; Ch 0x2f; Ch 0x40;
   Range 0xa1 0xff; Ch 0x2022; Ch 0x2027; Range 0x2150 0x218f].

(** The first class of [ANS_CJK_RE]. *)
Definition ANS_BEFORE_CJK : list item :=
  [Range 0x41 0x5a; Range 0x61 0x7a; Range 0x30 0x39;
   Ch 0x60; Ch 0x7e; Ch 0x24; Ch 0x25; Ch 0x5e; Ch 0x26; Ch 0x2a; Ch 0x2d;
   Ch 0x3d; Ch 0x2b; Ch 0x5c; Ch 0x7c; Ch 0x2f;
   Ch 0x21; Ch 0x3b; Ch 0x3a; Ch 0x2c; Ch 0x2e; Ch 0x3f;
   Range 0xa1 0xff; Ch 0x2022; Ch 0x2026; Ch 0x2027; Range 0x2150 0x218f].

Definition one (l : list item) : regex := Atom (Set_ l).

Definition CJK_QUOTE_RE : regex :=
  (Group 1 (one CJK) >> Group 2 (one QUOTE))%re.
Definition QUOTE_CJK_RE : regex :=
  (Group 1 (one QUOTE) >> Group 2 (one CJK_OF_QUOTE_CJK))%re.
Definition FIX_QUOTE_RE : regex :=
  (Group 1 (Plus (Set_ QUOTE_OPEN)) >> Group 2 (Star Space) >>
   Group 3 (PlusLazy Dot) >> Group 4 (Star Space) >>
   Group 5 (Plus (Set_ QUOTE_CLOSE)))%re.
Definition FIX_SINGLE_QUOTE_RE : regex :=
  (Group 1 (one CJK) >> Group 2 (Atom (Lit 0x20)) >> Group 3 (Atom (Lit 0x27)) >>
   Group 4 (one LETTER))%re.

Definition CJK_HASH_RE : regex :=
  (Group 1 (one CJK) >>
   Group 2 (Atom (Lit 0x23) >> Group 3 (Plus NonSpace)))%re.
Definition HASH_CJK_RE : regex :=
  (Group 1 (Group 2 (Plus NonSpace) >> Atom (Lit 0x23)) >>
   Group 3 (one CJK))%re.

Definition CJK_OPERATOR_ANS_RE : regex :=
  (Group 1 (one CJK) >> Group 2 (one OPERATOR) >> Group 3 (one ALNUM))%re.
Definition ANS_OPERATOR_CJK_RE : regex :=
  (Group 1 (one ALNUM) >> Group 2 (one OPERATOR) >> Group 3 (one CJK))%re.

Definition CJK_BRACKET_CJK_RE : regex :=
  (Group 1 (one CJK) >>
   Group 2 (Plus (Set_ BRACKET_OPEN) >> Group 3 (StarLazy Dot) >>
            Plus (Set_ BRACKET_CLOSE)) >>
   Group 4 (one CJK))%re.
Definition CJK_BRACKET_RE : regex :=
  (Group 1 (one CJK) >> Group 2 (one BRACKET_AFTER_CJK))%re.
Definition BRACKET_CJK_RE : regex :=
  (Group 1 (one BRACKET_BEFORE_CJK) >> Group 2 (one CJK))%re.
Definition FIX_BRACKET_RE : regex :=
  (Group 1 (Plus (Set_ BRACKET_OPEN)) >> Group 2 (Star Space) >>
   Group 3 (PlusLazy Dot) >> Group 4 (Star Space) >>
   Group 5 (Plus (Set_ BRACKET_CLOSE)))%re.

Definition FIX_SYMBOL_RE : regex :=
  (Group 1 (one CJK) >> Group 2 (one SYMBOL) >> Group 3 (one ALNUM))%re.

Definition CJK_ANS_RE : regex :=
  (Group 1 (one CJK) >> Group 2 (one ANS_AFTER_CJK))%re.
Definition ANS_CJK_RE : regex :=
  (Group 1 (one ANS_BEFORE_CJK) >> Group 2 (one CJK))%re.

(** The fifteen patterns, in the order of their use. *)
Definition patterns : list regex :=
  [CJK_QUOTE_RE; QUOTE_CJK_RE; FIX_QUOTE_RE; FIX_SINGLE_QUOTE_RE;
   CJK_HASH_RE; HASH_CJK_RE; CJK_OPERATOR_ANS_RE; ANS_OPERATOR_CJK_RE;
   CJK_BRACKET_CJK_RE; CJK_BRACKET_RE; BRACKET_CJK_RE; FIX_BRACKET_RE;
   FIX_SYMBOL_RE; CJK_ANS_RE; ANS_CJK_RE].

(** The replacement strings. *)
Definition SP : titem := Txt 0x20.
Definition T_1_2 : template := [Ref 1; SP; Ref 2].               (* \1 \2 *)
Definition T_1_3 : template := [Ref 1; SP; Ref 3].               (* \1 \3 *)
Definition T_135 : template := [Ref 1; Ref 3; Ref 5].            (* \1\3\5 *)
Definition T_134 : template := [Ref 1; Ref 3; Ref 4].            (* \1\3\4 *)
Definition T_1_2_3 : template := [Ref 1; SP; Ref 2; SP; Ref 3].  (* \1 \2 \3 *)
Definition T_1_2_4 : template := [Ref 1; SP; Ref 2; SP; Ref 4].  (* \1 \2 \4 *)
Definition T_12_3 : template := [Ref 1; Ref 2; SP; Ref 3].       (* \1\2 \3 *)

(** ** spacing_text *)

Definition spacing_text (text : str) : str :=
  let new_text := text in
  if (length new_text <? 2)%nat then new_text else
  let new_text := sub CJK_QUOTE_RE T_1_2 new_text in
  let new_text := sub QUOTE_CJK_RE T_1_2 new_text in
  let new_text := sub FIX_QUOTE_RE T_135 new_text in
  let new_text := sub FIX_SINGLE_QUOTE_RE T_134 new_text in
  let new_text := sub CJK_HASH_RE T_1_2 new_text in
  let new_text := sub HASH_CJK_RE T_1_3 new_text in
  let new_text := sub CJK_OPERATOR_ANS_RE T_1_2_3 new_text in
  let new_text := sub ANS_OPERATOR_CJK_RE T_1_2_3 new_text in
  let old_text := new_text in
  let tmp_text := sub CJK_BRACKET_CJK_RE T_1_2_4 new_text in
  let new_text := tmp_text in
  let new_text :=
    if text_eqb old_text tmp_text
    then
      let new_text := sub CJK_BRACKET_RE T_1_2 new_text in
      sub BRACKET_CJK_RE T_1_2 new_text
    else new_text in
  let new_text := sub FIX_BRACKET_RE T_135 new_text in
  let new_text := sub FIX_SYMBOL_RE T_12_3 new_text in
  let new_text := sub CJK_ANS_RE T_1_2 new_text in
  let new_text := sub ANS_CJK_RE T_1_2 new_text in
  strip new_text.

(** ** Declarative reading of a match

    [matches r x cs cs']: the pattern [r] can match exactly the text [x],
    turning the groups [cs] into [cs'].  Every result of the matcher is
    such a match ([run_sound] below); which one of them the matcher picks is
    decided by the priorities of [run]. *)

Inductive matches : regex -> str -> caps -> caps -> Prop :=
| M_Atom a c cs :
    atom_match a c = true -> matches (Atom a) [c] cs cs
| M_Rep a min g x cs :
    forallb (atom_match a) x = true -> (min <= length x)%nat ->
    matches (Rep a min g) x cs cs
| M_Cat r1 r2 x1 x2 cs0 cs1 cs2 :
    matches r1 x1 cs0 cs1 -> matches r2 x2 cs1 cs2 ->
    matches (Cat r1 r2) (x1 ++ x2) cs0 cs2
| M_Group n r x cs0 cs1 :
    matches r x cs0 cs1 -> matches (Group n r) x cs0 ((n, x) :: cs1).

Create HintDb regex.
#[local] Hint Constructors matches : regex.

(** The code points of a text that are not whitespace, in order. *)
Definition visible (s : str) : str := filter nonspace s.

(** ** The pipeline in stages

    [spacing_text] cut at the bracket step, to name the strings
    [old_text] and [tmp_text] of the source and the text handed to
    [strip]. *)

(** The eight substitutions before [old_text = new_text]. *)
Definition before_brackets (text : str) : str :=
  sub ANS_OPERATOR_CJK_RE T_1_2_3
    (sub CJK_OPERATOR_ANS_RE T_1_2_3
      (sub HASH_CJK_RE T_1_3
        (sub CJK_HASH_RE T_1_2
          (sub FIX_SINGLE_QUOTE_RE T_134
            (sub FIX_QUOTE_RE T_135
              (sub QUOTE_CJK_RE T_1_2
                (sub CJK_QUOTE_RE T_1_2 text))))))).

(** [tmp_text] from [old_text]. *)
Definition collapse (old_text : str) : str :=
  sub CJK_BRACKET_CJK_RE T_1_2_4 old_text.

(** The two substitutions under the [if]. *)
Definition single_sided (s : str) : str :=
  sub BRACKET_CJK_RE T_1_2 (sub CJK_BRACKET_RE T_1_2 s).

(** The four substitutions after the [if]. *)
Definition after_brackets (s : str) : str :=
  sub ANS_CJK_RE T_1_2
    (sub CJK_ANS_RE T_1_2
      (sub FIX_SYMBOL_RE T_12_3
        (sub FIX_BRACKET_RE T_135 s))).

(** Everything but the final [strip]. *)
Definition rules (text : str) : str :=
  let old_text := before_brackets text in
  let tmp_text := collapse old_text in
  after_brackets
    (if text_eqb old_text tmp_text then single_sided tmp_text else tmp_text).

(** ** Sample inputs *)

Definition sample_bug : str :=
  [0x7576; 0x4F60; 0x51DD; 0x8996; 0x8457; 0x62; 0x75; 0x67; 0xFF0C;
   0x62; 0x75; 0x67; 0x4E5F; 0x51DD; 0x8996; 0x8457; 0x4F60].
Definition sample_bug_spaced : str :=
  [0x7576; 0x4F60; 0x51DD; 0x8996; 0x8457; 0x20; 0x62; 0x75; 0x67; 0xFF0C;
   0x62; 0x75; 0x67; 0x20; 0x4E5F; 0x51DD; 0x8996; 0x8457; 0x4F60].
(** Its two brackets are the fullwidth U+FF08 and U+FF09. *)
Definition sample_fullwidth : str :=
  [0x5F71; 0x7247; 0xFF08; 0x500B; 0x4EBA; 0x96FB; 0x8166; 0x904A; 0x6232;
   0xFF09].


(** The ANS class as the specification words it (section 3), to compare
    with the two classes the patterns carry: ASCII letters and digits, the
    symbols ` ~ $ % ^ & * - = + \ | / @, U+00A1 to U+00FF, U+2022, U+2026,
    U+2027 and U+2150 to U+218F. *)
Definition ANS_SPEC : list item :=
  [Range 0x41 0x5a; Range 0x61 0x7a; Range 0x30 0x39;
   Ch 0x60; Ch 0x7e; Ch 0x24; Ch 0x25; Ch 0x5e; Ch 0x26; Ch 0x2a; Ch 0x2d;
   Ch 0x3d; Ch 0x2b; Ch 0x5c; Ch 0x7c; Ch 0x2f; Ch 0x40;
   Range 0xa1 0xff; Ch 0x2022; Ch 0x2026; Ch 0x2027; Range 0x2150 0x218f].

(** The two ranges [CJK] has and [CJK_OF_QUOTE_CJK] has not. *)
Definition RADICALS : list item := [Range 0x2e80 0x2eff; Range 0x2f00 0x2fdf].

(** ** Texts made of delimited spans

    [FIX_QUOTE_RE] and [FIX_BRACKET_RE] are one pattern over two pairs of
    delimiter classes. *)

Definition fix_re (O C : list item) : regex :=
  (Group 1 (Plus (Set_ O)) >> Group 2 (Star Space) >>
   Group 3 (PlusLazy Dot) >> Group 4 (Star Space) >>
   Group 5 (Plus (Set_ C)))%re.

(** A span: an opening delimiter, padding, content, padding, a closing
    delimiter. *)
Record span : Type := Span {
  opening : Z;
  pad_left : str;
  content : str;
  pad_right : str;
  closing : Z
}.

Definition raw (sp : span) : str :=
  opening sp :: pad_left sp ++ content sp ++ pad_right sp ++ [closing sp].

Definition tight (sp : span) : str :=
  opening sp :: content sp ++ [closing sp].

(** The content is on one line, holds no delimiter and neither starts nor
    ends with whitespace (so it is not empty: an empty text has U+0020 for
    head here); the padding is whitespace. *)
Definition plain (O C : list item) (x : Z) : bool :=
  negb (x =? 0x0a) && negb (in_cls O x) && negb (in_cls C x).

Definition span_ok (O C : list item) (sp : span) : bool :=
  in_cls O (opening sp) && in_cls C (closing sp) &&
  forallb isspace (pad_left sp) && forallb isspace (pad_right sp) &&
  forallb (plain O C) (content sp) &&
  nonspace (hd 0x20 (content sp)) && nonspace (hd 0x20 (rev (content sp))).

(** The groups of a match of [fix_re] on a span. *)
Definition span_caps (sp : span) : caps :=
  [(5%nat, [closing sp]); (4%nat, pad_right sp); (3%nat, content sp);
   (2%nat, pad_left sp); (1%nat, [opening sp])].

(** What follows a span does not go on with a closing delimiter. *)
Definition stops (a : atom) (s : str) : bool :=
  match s with
  | [] => true
  | x :: _ => negb (atom_match a x)
  end.

Definition no_opening (O : list item) (s : str) : bool :=
  forallb (fun x => negb (in_cls O x)) s.

(** [spans_text O C s t]: [s] is a sequence of spans, each preceded by text
    without opening delimiter, and [t] is [s] with the padding of every
    span removed. *)
Inductive spans_text (O C : list item) : str -> str -> Prop :=
| st_tail (t : str) :
    no_opening O t = true -> spans_text O C t t
| st_span (gap : str) (sp : span) (s t : str) :
    no_opening O gap = true -> span_ok O C sp = true ->
    stops (Set_ C) s = true -> spans_text O C s t ->
    spans_text O C (gap ++ raw sp ++ s) (gap ++ tight sp ++ t).

(** ** Respacing

    [edit p s t]: [t] is [s] with single spaces inserted between two
    characters that are not whitespace, and with whitespace dropped after
    an opening delimiter or before a closing one; [p] is the last
    character kept so far (U+0020 when there is none).  Every
    substitution of the pipeline is such a respacing of its input
    ([sub_edit] and the [edits_] lemmas below). *)

Inductive edit : Z -> str -> str -> Prop :=
| edit_nil p : edit p [] []
| edit_keep p x s t : edit x s t -> edit p (x :: s) (x :: t)
| edit_insert p y s t :
    nonspace p = true -> nonspace y = true -> edit y s t ->
    edit p (y :: s) (0x20 :: y :: t)
| edit_drop_after p w s t :
    in_cls QUOTE_OPEN p = true -> isspace w = true -> edit p s t ->
    edit p (w :: s) t
| edit_drop_before p w y s t :
    forallb isspace w = true -> in_cls QUOTE_CLOSE y = true -> edit y s t ->
    edit p (w ++ y :: s) (y :: t).

(** [respacing s t]: [t] is [s] after inserting U+0020 and deleting
    whitespace characters, any number of times. *)
Inductive respacing : str -> str -> Prop :=
| respacing_refl s : respacing s s
| respacing_insert a b t :
    respacing (a ++ 0x20 :: b) t -> respacing (a ++ b) t
| respacing_delete a w b t :
    isspace w = true -> respacing (a ++ b) t -> respacing (a ++ w :: b) t.

(** A rule whose replacements are respacings of what they replace. *)
Definition edits (re : regex) (tpl : template) : Prop :=
  forall x cs, matches re x [] cs ->
  forall p rest t, (forall q, edit q rest t) ->
  edit p (x ++ rest) (expand tpl cs ++ t).

(** The shape of the six two-class patterns. *)
Definition pair_re (A B : list item) : regex :=
  (Group 1 (one A) >> Group 2 (one B))%re.

(** [s] holds [l] then [r], adjacent or with one space between, after a
    prefix with the visible text of [pre]: the pair at that place of the
    input. *)
Definition has_pair (l r : Z) (pre s : str) : Prop :=
  exists pre' post',
    visible pre' = visible pre /\
    (s = pre' ++ l :: r :: post' \/ s = pre' ++ l :: 0x20 :: r :: post').

Definition has_spaced_pair (l r : Z) (pre s : str) : Prop :=
  exists pre' post',
    visible pre' = visible pre /\ s = pre' ++ l :: 0x20 :: r :: post'.

(** Everything before the last two substitutions. *)
Definition before_general (text : str) : str :=
  let old_text := before_brackets text in
  let tmp_text := collapse old_text in
  sub FIX_SYMBOL_RE T_12_3
    (sub FIX_BRACKET_RE T_135
      (if text_eqb old_text tmp_text then single_sided tmp_text else tmp_text)).

(** ** Texts the rules leave alone, and measures of spacing *)

Definition no_cjk (s : str) : bool := forallb (fun x => negb (in_cls CJK x)) s.

(** The thirteen patterns with a CJK class: all but the two cleanup
    patterns. *)
Definition cjk_patterns : list regex :=
  [CJK_QUOTE_RE; QUOTE_CJK_RE; FIX_SINGLE_QUOTE_RE; CJK_HASH_RE; HASH_CJK_RE;
   CJK_OPERATOR_ANS_RE; ANS_OPERATOR_CJK_RE; CJK_BRACKET_CJK_RE;
   CJK_BRACKET_RE; BRACKET_CJK_RE; FIX_SYMBOL_RE; CJK_ANS_RE; ANS_CJK_RE].

(** What must not directly follow, or directly precede, a CJK character in
    a text that the rules leave alone: the second class of a pattern that
    starts with the CJK class, the first class of one that ends with it,
    and the number sign. *)
Definition half_after (v : Z) : bool :=
  in_cls ANS_AFTER_CJK v || in_cls BRACKET_AFTER_CJK v || (v =? 0x23).
Definition half_before (u : Z) : bool :=
  in_cls ANS_BEFORE_CJK u || in_cls BRACKET_BEFORE_CJK u || (u =? 0x23).

(** No CJK character directly before a character of [half_after] or
    directly after one of [half_before], and none directly before a SYMBOL
    character followed by a letter or digit. *)
Fixpoint settled (s : str) : bool :=
  match s with
  | [] => true
  | u :: s' =>
      match s' with
      | [] => true
      | v :: s'' =>
          negb (in_cls CJK u && half_after v) &&
          negb (half_before u && in_cls CJK v) &&
          match s'' with
          | [] => true
          | w :: _ => negb (in_cls CJK u && in_cls SYMBOL v && in_cls ALNUM w)
          end
      end && settled s'
  end.

(** Settled, and without quote, apostrophe or opening bracket. *)
Definition calm (s : str) : bool := no_opening QUOTE_OPEN s && settled s.

(** [windows P s]: [P] holds of every non-empty suffix of [s]. *)
Fixpoint windows (P : str -> bool) (s : str) : bool :=
  match s with
  | [] => true
  | _ :: s' => P s && windows P s'
  end.

(** At the head of [s]: no CJK character directly before a quote, no quote
    directly before a CJK character, and no CJK character, space,
    apostrophe, letter in a row (what [FIX_SINGLE_QUOTE_RE] matches). *)
Definition quote_window (s : str) : bool :=
  match s with
  | u :: v :: s' =>
      negb (in_cls CJK u && in_cls QUOTE v) &&
      negb (in_cls QUOTE u && in_cls CJK v) &&
      match s' with
      | w :: x :: _ =>
          negb (in_cls CJK u && (v =? 0x20) && (w =? 0x27) && in_cls LETTER x)
      | _ => true
      end
  | _ => true
  end.

(** Correctly spaced text: settled, also towards quotes, and with nothing
    for the two cleanup substitutions to remove. *)
Definition spaced (t : str) : bool :=
  settled t && windows quote_window t &&
  text_eqb (sub FIX_QUOTE_RE T_135 t) t &&
  text_eqb (sub FIX_BRACKET_RE T_135 t) t.

(** No two whitespace characters in a row; [b] tells whether the
    character before [s] is whitespace. *)
Fixpoint single_spaced (b : bool) (s : str) : bool :=
  match s with
  | [] => true
  | x :: s' => negb (b && isspace x) && single_spaced (isspace x) s'
  end.

(** The number of characters of [s] that are visible and directly follow a
    visible character; [b] tells whether the character before [s] is
    visible. *)
Fixpoint adjacent (b : bool) (s : str) : nat :=
  match s with
  | [] => O
  | x :: s' => ((if b && nonspace x then 1 else 0) + adjacent (nonspace x) s')%nat
  end.

Definition spread (s : str) : nat := (length s + adjacent false s)%nat.

(** * Files

    [spacing_file], [_is_abs_file], [_detect_filepath] and [spacing] go
    through [os.path] and [open].  What these answer depends on the file
    system, the working directory and the home directory, so they are the
    fields of an environment; [E] is the type of the exceptions that
    opening and reading a file can raise. *)
Module os.
Record env (E : Type) : Type := {
  isabs : str -> bool;                  (* os.path.isabs *)
  isfile : str -> bool;                 (* os.path.isfile *)
  expanduser : str -> str;              (* os.path.expanduser *)
  abspath : str -> str;                 (* os.path.abspath *)
  join : str -> str -> str;             (* os.path.join *)
  read : str -> E + str                 (* open(path), then f.read() *)
}.
Definition curdir : str := [0x2e].      (* os.path.curdir *)
End os.

(** [src.startswith(x)] for a one-character [x]. *)
Definition startswith (src : str) (x : Z) : bool :=
  match src with
  | [] => false
  | c :: _ => c =? x
  end.

(** The truth value of what [_detect_filepath] returns, as the [if] of
    [spacing] takes it: [None] and the empty string are false. *)
Definition truthy (r : option str) : bool :=
  match r with
  | Some (_ :: _) => true
  | _ => false
  end.

Section Files.
Variable E : Type.
Variable sys : os.env E.

Definition spacing_file (path : str) : E + str :=
  match os.read sys (os.abspath sys path) with
  | inl e => inl e
  | inr fdata => inr (spacing_text fdata)
  end.

Definition _is_abs_file (fpath : str) : bool :=
  os.isabs sys fpath && os.isfile sys fpath.

Definition _detect_filepath (src : str) : option str :=
  match src with
  | [] => None
  | _ :: _ =>
      if os.isabs sys src && os.isfile sys src then Some src
      else if startswith src 0x7e then
        let abspath := os.expanduser sys src in
        if _is_abs_file abspath then Some abspath else None
      else
        let currdir := os.abspath sys os.curdir in
        let abspath := os.join sys currdir src in
        if _is_abs_file abspath then Some abspath else None
  end.

Definition spacing (path_or_text : str) : E + str :=
  if truthy (_detect_filepath path_or_text)
  then spacing_file path_or_text
  else inr (spacing_text path_or_text).
End Files.

(** A file system to run these on: one file, /h/f, the home directory /h
    and the working directory /w.  [abspath] and [join] put the working
    directory before a relative path, [expanduser] replaces a leading
    tilde by /h; reading anything but /h/f raises the one exception. *)
Definition sample_file : str := [0x2f; 0x68; 0x2f; 0x66].
Definition sample_isabs (p : str) : bool := startswith p 0x2f.
Definition sample_join (a b : str) : str :=
  if sample_isabs b then b else a ++ 0x2f :: b.
Definition sample_abspath (p : str) : str :=
  if sample_isabs p then p
  else if text_eqb p os.curdir then [0x2f; 0x77]
  else sample_join [0x2f; 0x77] p.
Definition sample_expanduser (p : str) : str :=
  match p with
  | 0x7e :: p' => [0x2f; 0x68] ++ p'
  | _ => p
  end.
Definition sample_sys : os.env unit :=
  {| os.isabs := sample_isabs;
     os.isfile := fun p => text_eqb p sample_file;
     os.expanduser := sample_expanduser;
     os.abspath := sample_abspath;
     os.join := sample_join;
     os.read := fun p => if text_eqb p sample_file
                         then inr [0x4e2d; 0x61] else inl tt |}.

(** * Properties *)

(** ** Text equality and stripping *)

Lemma text_eqb_spec (s t : str) : reflect (s = t) (text_eqb s t).
Proof.
  revert t; induction s as [|a s IH]; intros [|b t]; simpl;
    try (constructor; congruence).
  destruct (Z.eqb_spec a b) as [->|Hab]; simpl.
  - destruct (IH t) as [->|Hst]; constructor; congruence.
  - constructor; congruence.
Qed.

Lemma visible_app (s t : str) : visible (s ++ t) = visible s ++ visible t.
Proof. apply filter_app. Qed.

Lemma visible_spaces (w : str) : forallb isspace w = true -> visible w = [].
Proof.
  induction w as [|c w IH]; simpl; [reflexivity|].
  intros H; apply andb_prop in H as [Hc Hw].
  unfold nonspace; rewrite Hc; simpl; auto.
Qed.

Lemma lstrip_split (s : str) :
  exists w, s = w ++ lstrip s /\ forallb isspace w = true.
Proof.
  induction s as [|c s (w & Hs & Hw)]; simpl.
  - exists []; split; reflexivity.
  - destruct (isspace c) eqn:Hc.
    + exists (c :: w); simpl; rewrite Hc, Hw; split; [congruence|reflexivity].
    + exists []; split; reflexivity.
Qed.

Lemma forallb_rev (f : Z -> bool) (l : str) : forallb f (rev l) = forallb f l.
Proof.
  induction l as [|c l IH]; simpl; [reflexivity|].
  rewrite forallb_app, IH; simpl; rewrite andb_true_r; apply andb_comm.
Qed.

Lemma rstrip_split (s : str) :
  exists w, s = rstrip s ++ w /\ forallb isspace w = true.
Proof.
  unfold rstrip; destruct (lstrip_split (rev s)) as (w & Hs & Hw).
  exists (rev w); split.
  - rewrite <- rev_app_distr, <- Hs, rev_involutive; reflexivity.
  - rewrite forallb_rev; exact Hw.
Qed.

Lemma strip_split (s : str) :
  exists l r, s = l ++ strip s ++ r /\
              forallb isspace l = true /\ forallb isspace r = true.
Proof.
  destruct (lstrip_split s) as (l & Hl & Hwl).
  destruct (rstrip_split (lstrip s)) as (r & Hr & Hwr).
  exists l, r; unfold strip; repeat split; try assumption.
  rewrite <- Hr; exact Hl.
Qed.

Lemma text_eqb_refl (s : str) : text_eqb s s = true.
Proof. destruct (text_eqb_spec s s); congruence. Qed.

Lemma visible_cons_space (w : Z) (s : str) :
  isspace w = true -> visible (w :: s) = visible s.
Proof. intros H; unfold visible, nonspace; simpl; rewrite H; reflexivity. Qed.

Lemma visible_cons_eq (x : Z) (s t : str) :
  visible s = visible t -> visible (x :: s) = visible (x :: t).
Proof.
  unfold visible; simpl; intros ->; reflexivity.
Qed.

Lemma forallb_impl (f g : Z -> bool) (l : str) :
  (forall x, f x = true -> g x = true) ->
  forallb f l = true -> forallb g l = true.
Proof.
  intros H; induction l as [|x l IH]; simpl; [reflexivity|].
  intros Hl; apply andb_prop in Hl as [Hx Hl].
  rewrite (H _ Hx), (IH Hl); reflexivity.
Qed.

Lemma last_cons (x p : Z) (g : str) : last (x :: g) p = last g x.
Proof.
  revert x p; induction g as [|y g IH]; intros x p; [reflexivity|].
  change (last (y :: g) p = last (y :: g) x).
  rewrite (IH y p), (IH y x); reflexivity.
Qed.

Lemma forallb_last (f : Z -> bool) (g : str) (x : Z) :
  f x = true -> forallb f g = true -> f (last g x) = true.
Proof.
  revert x; induction g as [|y g IH]; intros x Hx Hg; [exact Hx|].
  simpl in Hg; apply andb_prop in Hg as [Hy Hg].
  rewrite last_cons; auto.
Qed.

Lemma lstrip_head (s t : str) (c : Z) : lstrip s = c :: t -> isspace c = false.
Proof.
  induction s as [|d s IH]; simpl; [discriminate|].
  destruct (isspace d) eqn:Hd; [exact IH|].
  intros E; injection E as <- _; exact Hd.
Qed.

Lemma rstrip_last (s t : str) (c : Z) : rstrip s = t ++ [c] -> isspace c = false.
Proof.
  unfold rstrip; intros E.
  apply (f_equal (@rev Z)) in E.
  rewrite rev_involutive, rev_app_distr in E; simpl in E.
  exact (lstrip_head _ E).
Qed.

Lemma strip_head (s t : str) (c : Z) : strip s = c :: t -> isspace c = false.
Proof.
  unfold strip; intros E.
  destruct (rstrip_split (lstrip s)) as (w & Hs & _).
  rewrite E in Hs; simpl in Hs.
  exact (lstrip_head _ Hs).
Qed.

Lemma strip_last (s t : str) (c : Z) : strip s = t ++ [c] -> isspace c = false.
Proof. unfold strip; apply rstrip_last. Qed.

(** ** The matcher only returns matches *)

Lemma rep_greedy_sound (R : Type) (a : atom) (s : str) :
  forall (min : nat) (k : str -> str -> option R) (res : R),
    rep_greedy a min s k = Some res ->
    exists x rest, s = x ++ rest /\ forallb (atom_match a) x = true /\
                   (min <= length x)%nat /\ k x rest = Some res.
Proof.
  induction s as [|c s IH]; intros min k res H; simpl in H.
  - destruct min; [|discriminate].
    exists [], []; auto.
  - assert (Hstop : match min with O => k [] (c :: s) | S _ => None end = Some res ->
                    exists x rest, c :: s = x ++ rest /\
                      forallb (atom_match a) x = true /\
                      (min <= length x)%nat /\ k x rest = Some res).
    { destruct min; [|discriminate]. intros Hk; exists [], (c :: s); auto. }
    destruct (atom_match a c) eqn:Hc; [|auto].
    destruct (rep_greedy a (pred min) s (fun x rest => k (c :: x) rest)) eqn:Hg;
      simpl in H; [|auto].
    injection H as ->.
    apply IH in Hg as (x & rest & -> & Hx & Hmin & Hk).
    exists (c :: x), rest; simpl; rewrite Hc, Hx; repeat split; auto; lia.
Qed.

Lemma rep_lazy_sound (R : Type) (a : atom) (s : str) :
  forall (min : nat) (k : str -> str -> option R) (res : R),
    rep_lazy a min s k = Some res ->
    exists x rest, s = x ++ rest /\ forallb (atom_match a) x = true /\
                   (min <= length x)%nat /\ k x rest = Some res.
Proof.
  induction s as [|c s IH]; intros min k res H; simpl in H.
  - destruct min; [|discriminate].
    destruct (k [] []) eqn:Hk; simpl in H; [|discriminate].
    exists [], []; rewrite Hk; auto.
  - assert (Hmore : (if atom_match a c
                     then rep_lazy a (pred min) s (fun x rest => k (c :: x) rest)
                     else None) = Some res ->
                    exists x rest, c :: s = x ++ rest /\
                      forallb (atom_match a) x = true /\
                      (min <= length x)%nat /\ k x rest = Some res).
    { destruct (atom_match a c) eqn:Hc; [|discriminate]. intros Hg.
      apply IH in Hg as (x & rest & -> & Hx & Hmin & Hk).
      exists (c :: x), rest; simpl; rewrite Hc, Hx; repeat split; auto; lia. }
    destruct min; [|auto].
    destruct (k [] (c :: s)) eqn:Hk; simpl in H; [|auto].
    exists [], (c :: s); rewrite Hk; auto.
Qed.

Lemma run_sound (R : Type) (r : regex) :
  forall (s : str) (cs : caps) (k : str -> str -> caps -> option R) (res : R),
    run r s cs k = Some res ->
    exists x rest cs', s = x ++ rest /\ matches r x cs cs' /\
                       k x rest cs' = Some res.
Proof.
  induction r as [a|a min g|r1 IH1 r2 IH2|n r1 IH1]; intros s cs k res H; simpl in H.
  - destruct s as [|c s]; [discriminate|].
    destruct (atom_match a c) eqn:Hc; [|discriminate].
    exists [c], s, cs; repeat split; auto with regex.
  - destruct g;
      [apply rep_greedy_sound in H | apply rep_lazy_sound in H];
      destruct H as (x & rest & -> & Hx & Hmin & Hk);
      exists x, rest, cs; repeat split; auto with regex.
  - apply IH1 in H as (x1 & s1 & cs1 & -> & M1 & H).
    apply IH2 in H as (x2 & s2 & cs2 & -> & M2 & H).
    exists (x1 ++ x2), s2, cs2; rewrite app_assoc; repeat split; eauto with regex.
  - apply IH1 in H as (x & rest & cs1 & -> & M1 & H).
    exists x, rest, ((n, x) :: cs1); repeat split; auto with regex.
Qed.

Lemma match_at_sound (re : regex) (s x rest : str) (cs : caps) :
  match_at re s = Some (x, rest, cs) -> s = x ++ rest /\ matches re x [] cs.
Proof.
  unfold match_at; intros H.
  apply run_sound in H as (x' & rest' & cs' & -> & M & H).
  injection H as <- <- <-; auto.
Qed.

(** ** Unfolding [sub] *)

Lemma sub_from_skip (re : regex) (tpl : template) (x rest : str) :
  sub_from re tpl (length x) (x ++ rest) = sub re tpl rest.
Proof. induction x as [|c x IH]; simpl; [destruct rest|]; auto. Qed.

Lemma sub_nil (re : regex) (tpl : template) :
  match_at re [] = None -> sub re tpl [] = [].
Proof. unfold sub; simpl; intros ->; reflexivity. Qed.

Lemma sub_copy (re : regex) (tpl : template) (c : Z) (s : str) :
  match_at re (c :: s) = None -> sub re tpl (c :: s) = c :: sub re tpl s.
Proof. unfold sub; simpl; intros ->; reflexivity. Qed.

Lemma sub_replace (re : regex) (tpl : template) (s x rest : str) (cs : caps) :
  match_at re s = Some (x, rest, cs) -> x <> [] ->
  sub re tpl s = expand tpl cs ++ sub re tpl rest.
Proof.
  intros H Hx; destruct (match_at_sound _ _ H) as [-> _].
  unfold sub at 1; destruct x as [|c x]; [congruence|].
  change ((c :: x) ++ rest) with (c :: (x ++ rest)) in *.
  cbn [sub_from]; rewrite H, sub_from_skip; reflexivity.
Qed.

(** ** What the matcher picks on a run of characters *)

Lemma rep_greedy_longest (R : Type) (a : atom) (x rest : str) :
  forall (min : nat) (k : str -> str -> option R) (res : R),
    forallb (atom_match a) x = true -> stops a rest = true ->
    (min <= length x)%nat -> k x rest = Some res ->
    rep_greedy a min (x ++ rest) k = Some res.
Proof.
  induction x as [|c x IH]; intros min k res Hx Hrest Hmin Hk.
  - simpl in Hmin; assert (min = O) by lia; subst min.
    destruct rest as [|d rest]; simpl; [exact Hk|].
    simpl in Hrest; apply negb_true_iff in Hrest; rewrite Hrest; exact Hk.
  - simpl in Hx; apply andb_prop in Hx as [Hc Hx].
    simpl; rewrite Hc.
    rewrite (IH (pred min) (fun y r => k (c :: y) r) res); auto.
    simpl in Hmin; lia.
Qed.

Lemma rep_lazy_shortest (R : Type) (a : atom) (x rest : str) :
  forall (min : nat) (k : str -> str -> option R) (res : R),
    forallb (atom_match a) x = true -> (min <= length x)%nat ->
    (forall p q, x = p ++ q -> q <> [] -> k p (q ++ rest) = None) ->
    k x rest = Some res ->
    rep_lazy a min (x ++ rest) k = Some res.
Proof.
  induction x as [|c x IH]; intros min k res Hx Hmin Hshort Hk.
  - simpl in Hmin; assert (min = O) by lia; subst min.
    destruct rest as [|d rest]; simpl; rewrite Hk; reflexivity.
  - simpl in Hx; apply andb_prop in Hx as [Hc Hx].
    assert (Hmore : rep_lazy a (pred min) (x ++ rest) (fun y r => k (c :: y) r)
                    = Some res).
    { apply IH; auto.
      - simpl in Hmin; lia.
      - intros p q E Hq. apply (Hshort (c :: p) q); [rewrite E; reflexivity|exact Hq]. }
    simpl; rewrite Hc, Hmore.
    destruct min; [|reflexivity].
    assert (E : k [] (c :: x ++ rest) = None)
      by (apply (Hshort [] (c :: x)); [reflexivity|discriminate]).
    rewrite E; reflexivity.
Qed.

Lemma rep_greedy_none (R : Type) (a : atom) (min : nat) (s : str)
      (k : str -> str -> option R) :
  (forall x rest, s = x ++ rest -> forallb (atom_match a) x = true ->
                  (min <= length x)%nat -> k x rest = None) ->
  rep_greedy a min s k = None.
Proof.
  intros H; destruct (rep_greedy a min s k) as [res|] eqn:E; [|reflexivity].
  apply rep_greedy_sound in E as (x & rest & Es & Hx & Hmin & Hk).
  rewrite (H _ _ Es Hx Hmin) in Hk; discriminate.
Qed.

Lemma match_at_none (re : regex) (s : str) :
  (forall x rest cs, s = x ++ rest -> ~ matches re x [] cs) ->
  match_at re s = None.
Proof.
  intros H; destruct (match_at re s) as [[[x rest] cs]|] eqn:E; [|reflexivity].
  apply match_at_sound in E as [Es M]; destruct (H _ _ _ Es M).
Qed.

(** ** Facts about characters from their classes *)

Ltac unfold_classes :=
  unfold in_cls, in_item, nonspace, isspace, plain, CJK, CJK_OF_QUOTE_CJK,
    QUOTE, QUOTE_OPEN, QUOTE_CLOSE, LETTER, ALNUM, OPERATOR, BRACKET_OPEN,
    BRACKET_CLOSE, BRACKET_AFTER_CJK, BRACKET_BEFORE_CJK, SYMBOL,
    ANS_AFTER_CJK, ANS_BEFORE_CJK, ANS_SPEC, RADICALS in *;
  cbn [existsb forallb] in *.

Ltac solve_cls := unfold_classes; lia.

(** A fact about one character, from the one hypothesis on its class. *)
Ltac solve_char :=
  match goal with
  | H : in_cls _ ?c = true |- context [?c] => clear - H; solve_cls
  | H : (?c =? _) = true |- context [?c] => clear - H; solve_cls
  | _ => solve_cls
  end.

(** ** The pipeline *)

Lemma spacing_text_rules (text : str) :
  (2 <= length text)%nat -> spacing_text text = strip (rules text).
Proof.
  intros H; unfold spacing_text.
  destruct (Nat.ltb_spec (length text) 2) as [Hlt|_]; [lia|].
  reflexivity.
Qed.

(** C1. [spacing_text] maps the docstring's sample to the same text with
    one space before the first "bug" and one after the second. *)
Theorem spacing_text_sample_bug : spacing_text sample_bug = sample_bug_spaced.
Proof. vm_compute; reflexivity. Qed.


(** Not so for every input: after the collapsing rule fired once, a second
    run takes the single-sided branch and spaces what the first left. *)
Example spacing_text_second_run_differs :
  let s := [0x4e2d; 0x28; 0x61; 0x29; 0x4e2d; 0x28; 0x62] in
  spacing_text s = [0x4e2d; 0x20; 0x28; 0x61; 0x29; 0x20; 0x4e2d; 0x28; 0x62] /\
  spacing_text (spacing_text s) =
    [0x4e2d; 0x20; 0x28; 0x61; 0x29; 0x20; 0x4e2d; 0x20; 0x28; 0x62].
Proof. split; vm_compute; reflexivity. Qed.

(** C4, as stated, fails: the output for the fullwidth-bracket sample
    contains no space at all. *)
Lemma sample_fullwidth_gets_no_space : ~ In 0x20 (spacing_text sample_fullwidth).
Proof. vm_compute; intuition discriminate. Qed.

(** C4, amended. The brackets of the sample are U+FF08 and U+FF09, which
    no class of the patterns contains: [spacing_text] returns the sample
    unchanged. *)
Theorem spacing_text_sample_fullwidth :
  spacing_text sample_fullwidth = sample_fullwidth.
Proof. vm_compute; reflexivity. Qed.

(** With ASCII brackets the two bracket branches show: the collapsing rule
    needs CJK after the closing bracket, otherwise the single-sided rules
    run. *)
Example spacing_text_ascii_brackets :
  spacing_text [0x5F71; 0x7247; 0x28; 0x500B; 0x4EBA; 0x29]
    = [0x5F71; 0x7247; 0x20; 0x28; 0x500B; 0x4EBA; 0x29] /\
  spacing_text [0x5F71; 0x7247; 0x28; 0x500B; 0x4EBA; 0x29; 0x597D]
    = [0x5F71; 0x7247; 0x20; 0x28; 0x500B; 0x4EBA; 0x29; 0x20; 0x597D].
Proof. split; vm_compute; reflexivity. Qed.

(** C7. A text of fewer than two code points is returned as it is. *)
Theorem spacing_text_short (text : str) :
  (length text < 2)%nat -> spacing_text text = text.
Proof.
  intros H; unfold spacing_text.
  destruct (Nat.ltb_spec (length text) 2) as [_|Hge]; [reflexivity|lia].
Qed.

Lemma spacing_text_short_witness :
  (length [0x20] < 2)%nat /\ spacing_text [0x20] = [0x20].
Proof. split; [simpl; lia | apply spacing_text_short; simpl; lia]. Defined.

(** C6. With [old_text] the text before the bracket step and [tmp_text]
    the result of the collapsing substitution on it: when the two are equal
    the single-sided rules are applied to it, and when they differ the
    rest of the pipeline continues from [tmp_text] without them. *)
Theorem bracket_fallback (text : str) :
  (2 <= length text)%nat ->
  let old_text := before_brackets text in
  let tmp_text := collapse old_text in
  (old_text = tmp_text ->
   spacing_text text = strip (after_brackets (single_sided tmp_text))) /\
  (old_text <> tmp_text ->
   spacing_text text = strip (after_brackets tmp_text)).
Proof.
  intros H old_text tmp_text.
  rewrite (spacing_text_rules _ H); unfold rules.
  fold old_text; fold tmp_text.
  destruct (text_eqb_spec old_text tmp_text) as [E|E]; split; intros E';
    congruence.
Qed.

Lemma bracket_fallback_witness :
  let text := [0x4e2d; 0x28; 0x61; 0x29; 0x4e2d; 0x28; 0x62] in
  (2 <= length text)%nat /\
  before_brackets text <> collapse (before_brackets text) /\
  spacing_text text = strip (after_brackets (collapse (before_brackets text))) /\
  spacing_text text <>
    strip (after_brackets (single_sided (collapse (before_brackets text)))).
Proof.
  intros text.
  assert (Hlen : (2 <= length text)%nat) by (simpl; lia).
  assert (Hne : before_brackets text <> collapse (before_brackets text))
    by (vm_compute; discriminate).
  split; [exact Hlen|].
  split; [exact Hne|].
  split.
  - exact (proj2 (bracket_fallback text Hlen) Hne).
  - vm_compute; discriminate.
Defined.

Lemma rules_general (text : str) :
  rules text = sub ANS_CJK_RE T_1_2 (sub CJK_ANS_RE T_1_2 (before_general text)).
Proof. reflexivity. Qed.

(** ** The final strip *)

(** C8, as stated, fails: on " ab" the rules produce no whitespace (they
    leave the text as it is), and the leading space of the input is
    removed all the same. *)
Lemma strip_removes_input_whitespace :
  rules [0x20; 0x61; 0x62] = [0x20; 0x61; 0x62] /\
  spacing_text [0x20; 0x61; 0x62] = [0x61; 0x62].
Proof. split; vm_compute; reflexivity. Qed.

(** C8, amended. For a text of at least two code points the output is
    [strip] of what the rules produce: it neither starts nor ends with
    whitespace, and what the rules produce is the output between two runs
    of whitespace, whether the rules inserted that whitespace or the
    input already had it. *)
Theorem spacing_text_stripped (text : str) :
  (2 <= length text)%nat ->
  spacing_text text = strip (rules text) /\
  (forall c t, spacing_text text = c :: t -> isspace c = false) /\
  (forall c t, spacing_text text = t ++ [c] -> isspace c = false) /\
  exists l r, rules text = l ++ spacing_text text ++ r /\
              forallb isspace l = true /\ forallb isspace r = true.
Proof.
  intros H; rewrite (spacing_text_rules _ H).
  split; [reflexivity|].
  split; [intros c t; apply strip_head|].
  split; [intros c t; apply strip_last|].
  apply strip_split.
Qed.

Lemma spacing_text_stripped_witness :
  let text := [0x20; 0x4e2d; 0x61; 0x09] in
  (2 <= length text)%nat /\
  spacing_text text = strip (rules text) /\
  (forall c t, spacing_text text = c :: t -> isspace c = false) /\
  (forall c t, spacing_text text = t ++ [c] -> isspace c = false) /\
  exists l r, rules text = l ++ spacing_text text ++ r /\
              forallb isspace l = true /\ forallb isspace r = true.
Proof.
  intros text.
  assert (Hlen : (2 <= length text)%nat) by (simpl; lia).
  split; [exact Hlen | exact (spacing_text_stripped text Hlen)].
Defined.

(** ** Every substitution is a respacing *)

Ltac invert_matches :=
  repeat match goal with
  | H : matches (Cat _ _) _ _ _ |- _ => inversion H; subst; clear H
  | H : matches (Group _ _) _ _ _ |- _ => inversion H; subst; clear H
  | H : matches (Atom _) _ _ _ |- _ => inversion H; subst; clear H
  | H : matches (Rep _ _ _) _ _ _ |- _ => inversion H; subst; clear H
  end.

Lemma patterns_consume :
  Forall (fun re => forall x cs, matches re x [] cs -> x <> []) patterns.
Proof.
  unfold patterns; repeat (apply Forall_cons; [|]); [..|apply Forall_nil];
    intros x cs M;
    unfold CJK_QUOTE_RE, QUOTE_CJK_RE, FIX_QUOTE_RE, FIX_SINGLE_QUOTE_RE,
      CJK_HASH_RE, HASH_CJK_RE, CJK_OPERATOR_ANS_RE, ANS_OPERATOR_CJK_RE,
      CJK_BRACKET_CJK_RE, CJK_BRACKET_RE, BRACKET_CJK_RE, FIX_BRACKET_RE,
      FIX_SYMBOL_RE, CJK_ANS_RE, ANS_CJK_RE, one, Plus, Star, PlusLazy,
      StarLazy in M;
    invert_matches;
    intros E; apply (f_equal (@length Z)) in E;
    repeat rewrite length_app in E; simpl in E; lia.
Qed.

Lemma sub_edit (re : regex) (tpl : template) :
  edits re tpl -> forall s p, edit p s (sub re tpl s).
Proof.
  intros K s.
  remember (length s) as n eqn:Hn.
  revert s Hn; induction n as [n IH] using lt_wf_ind; intros s Hn p.
  unfold sub; destruct s as [|c s]; cbn [sub_from].
  - destruct (match_at re []) as [[[x rest] cs]|] eqn:H; [|constructor].
    destruct (match_at_sound _ _ H) as [E M].
    symmetry in E; apply app_eq_nil in E as [-> ->].
    apply (K _ _ M p [] []); intros q; constructor.
  - assert (Hs : forall q, edit q s (sub re tpl s)).
    { intros q; apply (IH (length s)); subst; simpl; auto. }
    destruct (match_at re (c :: s)) as [[[x rest] cs]|] eqn:H.
    + destruct (match_at_sound _ _ H) as [E M].
      destruct x as [|d x]; simpl in E.
      * subst rest. apply (K _ _ M p (c :: s) (c :: sub re tpl s)).
        intros q; apply edit_keep, Hs.
      * injection E as <- ->.
        rewrite sub_from_skip.
        change (c :: x ++ rest) with ((c :: x) ++ rest).
        apply (K _ _ M); intros q.
        apply (IH (length rest)); [|reflexivity].
        subst n; simpl; rewrite length_app; lia.
    + apply edit_keep, Hs.
Qed.

Lemma edit_keep_run (g : str) :
  forall p s t, edit (last g p) s t -> edit p (g ++ s) (g ++ t).
Proof.
  induction g as [|x g IH]; intros p s t H; [exact H|].
  simpl; apply edit_keep, IH.
  rewrite last_cons in H; exact H.
Qed.

Lemma edit_drop_run (w : str) (p : Z) (s t : str) :
  in_cls QUOTE_OPEN p = true -> forallb isspace w = true ->
  edit p s t -> edit p (w ++ s) t.
Proof.
  intros Hp; induction w as [|w0 w IH]; intros Hw H; [exact H|].
  simpl in Hw; apply andb_prop in Hw as [Hw0 Hw].
  simpl; apply edit_drop_after; auto.
Qed.

Ltac nonempty_run :=
  match goal with
  | H : (1 <= length [])%nat |- _ => exfalso; clear - H; simpl in H; lia
  end.

Ltac edit_chars H :=
  repeat first
    [ apply H
    | apply edit_insert; [solve_char | solve_char | ]
    | apply edit_keep ].

Ltac edits_start re x cs M p rest t H :=
  intros x cs M p rest t H;
  unfold re, one, Plus, Star, PlusLazy, StarLazy in M;
  invert_matches;
  cbn [expand group Nat.eqb T_1_2 T_1_3 T_135 T_134 T_1_2_3 T_1_2_4 T_12_3 SP];
  cbn [atom_match] in *;
  repeat match goal with
  | H : context [atom_match (Set_ ?l)] |- _ =>
      change (atom_match (Set_ l)) with (in_cls l) in H
  end;
  change (atom_match Space) with isspace in *;
  cbn [app]; rewrite ?app_nil_r; repeat rewrite <- app_assoc; cbn [app].

Lemma edits_CJK_QUOTE : edits CJK_QUOTE_RE T_1_2.
Proof. edits_start CJK_QUOTE_RE x cs M p rest t H; edit_chars H. Qed.

Lemma edits_QUOTE_CJK : edits QUOTE_CJK_RE T_1_2.
Proof. edits_start QUOTE_CJK_RE x cs M p rest t H; edit_chars H. Qed.

Lemma edits_CJK_OPERATOR_ANS : edits CJK_OPERATOR_ANS_RE T_1_2_3.
Proof. edits_start CJK_OPERATOR_ANS_RE x cs M p rest t H; edit_chars H. Qed.

Lemma edits_ANS_OPERATOR_CJK : edits ANS_OPERATOR_CJK_RE T_1_2_3.
Proof. edits_start ANS_OPERATOR_CJK_RE x cs M p rest t H; edit_chars H. Qed.

Lemma edits_CJK_BRACKET : edits CJK_BRACKET_RE T_1_2.
Proof. edits_start CJK_BRACKET_RE x cs M p rest t H; edit_chars H. Qed.

Lemma edits_BRACKET_CJK : edits BRACKET_CJK_RE T_1_2.
Proof. edits_start BRACKET_CJK_RE x cs M p rest t H; edit_chars H. Qed.

Lemma edits_FIX_SYMBOL : edits FIX_SYMBOL_RE T_12_3.
Proof. edits_start FIX_SYMBOL_RE x cs M p rest t H; edit_chars H. Qed.

Lemma edits_CJK_ANS : edits CJK_ANS_RE T_1_2.
Proof. edits_start CJK_ANS_RE x cs M p rest t H; edit_chars H. Qed.

Lemma edits_ANS_CJK : edits ANS_CJK_RE T_1_2.
Proof. edits_start ANS_CJK_RE x cs M p rest t H; edit_chars H. Qed.

Lemma edits_FIX_SINGLE_QUOTE : edits FIX_SINGLE_QUOTE_RE T_134.
Proof.
  edits_start FIX_SINGLE_QUOTE_RE x cs M p rest t H.
  apply edit_keep.
  match goal with
  | |- edit _ (?s :: ?q :: _) _ => apply (@edit_drop_before _ [s] q)
  end; [solve_char | solve_char | edit_chars H].
Qed.

Lemma edits_CJK_HASH : edits CJK_HASH_RE T_1_2.
Proof.
  edits_start CJK_HASH_RE x cs M p rest t H.
  apply edit_keep.
  apply edit_insert; [solve_char | solve_char | ].
  apply edit_keep_run, H.
Qed.

Lemma edits_HASH_CJK : edits HASH_CJK_RE T_1_3.
Proof.
  edits_start HASH_CJK_RE x cs M p rest t H.
  apply edit_keep_run, edit_keep.
  apply edit_insert; [solve_char | solve_char | apply H].
Qed.

Lemma bracket_close_visible (x : Z) :
  in_cls BRACKET_CLOSE x = true -> nonspace x = true.
Proof. intros H; solve_cls. Qed.

Lemma edits_CJK_BRACKET_CJK : edits CJK_BRACKET_CJK_RE T_1_2_4.
Proof.
  edits_start CJK_BRACKET_CJK_RE x cs M p rest t H.
  match goal with
  | Ho : forallb (in_cls BRACKET_OPEN) ?o = true,
    Hc : forallb (in_cls BRACKET_CLOSE) ?c = true |- _ =>
      destruct o as [|o1 o]; [nonempty_run|];
      destruct c as [|c1 c]; [nonempty_run|];
      cbn [forallb] in Ho, Hc;
      apply andb_prop in Ho as [Ho1 Ho];
      apply andb_prop in Hc as [Hc1 Hc];
      cbn [app];
      apply edit_keep;
      apply edit_insert; [solve_char | solve_char | ];
      apply edit_keep_run, edit_keep_run, edit_keep, edit_keep_run;
      apply edit_insert;
        [ apply forallb_last;
          [ apply bracket_close_visible, Hc1
          | exact (forallb_impl _ _ _ bracket_close_visible Hc) ]
        | solve_char | apply H ]
  end.
Qed.

Section FixEdits.
Variables O C : list item.
Hypothesis O_opening : forall x, in_cls O x = true -> in_cls QUOTE_OPEN x = true.
Hypothesis C_closing : forall x, in_cls C x = true -> in_cls QUOTE_CLOSE x = true.

Lemma edits_fix_re : edits (fix_re O C) T_135.
Proof.
  edits_start fix_re x cs M p rest t H.
  match goal with
  | Ho : forallb (in_cls O) ?o = true, Hc : forallb (in_cls C) ?c = true,
    Hl : forallb isspace ?wl = true |- edit _ (_ ++ ?wl ++ _ ++ ?wr ++ _) _ =>
      destruct o as [|o1 o]; [nonempty_run|];
      destruct c as [|c1 c]; [nonempty_run|];
      cbn [forallb] in Ho, Hc;
      apply andb_prop in Ho as [Ho1 Ho];
      apply andb_prop in Hc as [Hc1 Hc];
      cbn [app];
      apply edit_keep, edit_keep_run;
      apply edit_drop_run;
        [ apply (forallb_last (in_cls QUOTE_OPEN));
          [ apply O_opening, Ho1 | exact (forallb_impl _ _ _ O_opening Ho) ]
        | exact Hl | ];
      apply edit_keep_run;
      apply edit_drop_before; [assumption | apply C_closing, Hc1 | ];
      apply edit_keep_run, H
  end.
Qed.
End FixEdits.

Lemma edits_FIX_QUOTE : edits FIX_QUOTE_RE T_135.
Proof. apply edits_fix_re; auto. Qed.

Lemma edits_FIX_BRACKET : edits FIX_BRACKET_RE T_135.
Proof. apply edits_fix_re; intros x H; solve_cls. Qed.


(** ** The whole pipeline is a respacing *)

Lemma respacing_trans (s t u : str) :
  respacing s t -> respacing t u -> respacing s u.
Proof.
  induction 1 as [s|a b t H IH|a w b t Hw H IH]; intros Hu;
    [assumption | apply respacing_insert | apply respacing_delete]; auto.
Qed.

Lemma respacing_app (x s t : str) :
  respacing s t -> respacing (x ++ s) (x ++ t).
Proof.
  induction 1 as [s|a b t H IH|a w b t Hw H IH].
  - apply respacing_refl.
  - rewrite app_assoc; apply respacing_insert; rewrite <- app_assoc; exact IH.
  - rewrite app_assoc; apply respacing_delete; [exact Hw|].
    rewrite <- app_assoc; exact IH.
Qed.

Lemma respacing_cons (x : Z) (s t : str) :
  respacing s t -> respacing (x :: s) (x :: t).
Proof. apply (respacing_app [x]). Qed.

Lemma respacing_delete_run (w s : str) :
  forallb isspace w = true -> respacing (w ++ s) s.
Proof.
  induction w as [|w0 w IH]; intros Hw; [apply respacing_refl|].
  simpl in Hw; apply andb_prop in Hw as [Hw0 Hw].
  apply (respacing_delete [] w0 (w ++ s) Hw0); simpl; auto.
Qed.

Lemma edit_respacing (p : Z) (s t : str) : edit p s t -> respacing s t.
Proof.
  induction 1 as [p|p x s t H IH|p y s t Hp Hy H IH|p w s t Hp Hw H IH
                  |p w y s t Hw Hy H IH].
  - apply respacing_refl.
  - apply respacing_cons, IH.
  - apply (respacing_insert [] (y :: s)); simpl.
    apply (respacing_app [0x20; y]), IH.
  - apply (respacing_delete [] w s Hw); exact IH.
  - apply respacing_trans with (y :: s).
    + apply respacing_delete_run, Hw.
    + apply respacing_cons, IH.
Qed.

Lemma sub_respacing (re : regex) (tpl : template) (s : str) :
  edits re tpl -> respacing s (sub re tpl s).
Proof. intros K; exact (edit_respacing (sub_edit K s 0x20)). Qed.

Lemma respacing_delete_end (s w : str) :
  forallb isspace w = true -> respacing (s ++ w) s.
Proof.
  intros Hw. rewrite <- (app_nil_r s) at 2.
  apply respacing_app. rewrite <- (app_nil_r w).
  apply respacing_delete_run, Hw.
Qed.

Lemma strip_respacing (s : str) : respacing s (strip s).
Proof.
  destruct (strip_split s) as (l & r & Hs & Hl & Hr).
  rewrite Hs at 1.
  apply respacing_trans with (strip s ++ r).
  - apply respacing_delete_run, Hl.
  - apply respacing_delete_end, Hr.
Qed.

Lemma respacing_visible (s t : str) : respacing s t -> visible t = visible s.
Proof.
  induction 1 as [s|a b t H IH|a w b t Hw H IH]; [reflexivity| |];
    rewrite IH, !visible_app; f_equal; [].
  symmetry; apply visible_cons_space, Hw.
Qed.

Lemma rules_respacing (text : str) : respacing text (rules text).
Proof.
  assert (S : forall re tpl s, edits re tpl -> respacing text s ->
                               respacing text (sub re tpl s))
    by (intros re tpl s K H; exact (respacing_trans H (sub_respacing s K))).
  rewrite rules_general.
  unfold before_general, before_brackets, collapse, single_sided; cbv zeta.
  apply S; [exact edits_ANS_CJK|].
  apply S; [exact edits_CJK_ANS|].
  apply S; [exact edits_FIX_SYMBOL|].
  apply S; [exact edits_FIX_BRACKET|].
  match goal with |- context [if ?b then _ else _] => destruct b end;
    repeat (apply S;
            [first [ exact edits_BRACKET_CJK | exact edits_CJK_BRACKET
                   | exact edits_CJK_BRACKET_CJK | exact edits_ANS_OPERATOR_CJK
                   | exact edits_CJK_OPERATOR_ANS | exact edits_HASH_CJK
                   | exact edits_CJK_HASH | exact edits_FIX_SINGLE_QUOTE
                   | exact edits_FIX_QUOTE | exact edits_QUOTE_CJK
                   | exact edits_CJK_QUOTE ]|]);
    apply respacing_refl.
Qed.

(** C9. The output of [spacing_text] is its input after insertions of
    U+0020 and deletions of whitespace, nothing else; so the code points
    that are not whitespace are those of the input, in the same order. *)
Theorem spacing_text_respaces (text : str) :
  respacing text (spacing_text text) /\
  visible (spacing_text text) = visible text.
Proof.
  assert (H : respacing text (spacing_text text)).
  { unfold spacing_text.
    destruct (length text <? 2)%nat eqn:E; [apply respacing_refl|].
    change (respacing text (strip (rules text))).
    exact (respacing_trans (rules_respacing text) (strip_respacing _)). }
  split; [exact H | exact (respacing_visible H)].
Qed.

(** ** A pair of adjacent characters under respacing *)

Section Pair.
Variables l r : Z.
Hypothesis l_visible : nonspace l = true.
Hypothesis r_visible : nonspace r = true.
Hypothesis l_not_opening : in_cls QUOTE_OPEN l = false.
Hypothesis r_not_closing : in_cls QUOTE_CLOSE r = false.

Lemma edit_head (p : Z) (s t : str) :
  edit p (r :: s) t ->
  exists t', edit r s t' /\
             (t = r :: t' \/ (nonspace p = true /\ t = 0x20 :: r :: t')).
Proof.
  intros H; remember (r :: s) as u eqn:E.
  destruct H as [p|p x s0 t0 H'|p y s0 t0 Hp Hy H'|p w s0 t0 Hp Hw H'
                 |p w y s0 t0 Hw Hy H'].
  - discriminate.
  - injection E as -> ->; eauto.
  - injection E as -> ->; eauto.
  - injection E as -> ->.
    unfold nonspace in r_visible; rewrite Hw in r_visible; discriminate.
  - destruct w as [|w0 w]; simpl in E; injection E as -> E.
    + congruence.
    + simpl in Hw; apply andb_prop in Hw as [Hw _].
      unfold nonspace in r_visible; rewrite Hw in r_visible; discriminate.
Qed.

Lemma edit_after_left (s t : str) :
  edit l (r :: s) t -> exists t', t = r :: t' \/ t = 0x20 :: r :: t'.
Proof.
  intros H; destruct (edit_head H) as (t' & _ & [E|[_ E]]); eauto.
Qed.

Lemma edit_after_left_spaced (s t : str) :
  edit l (0x20 :: r :: s) t -> exists t', t = 0x20 :: r :: t'.
Proof.
  intros H; remember (0x20 :: r :: s) as u eqn:E.
  destruct H as [p|p x s0 t0 H'|p y s0 t0 Hp Hy H'|p w s0 t0 Hp Hw H'
                 |p w y s0 t0 Hw Hy H'].
  - discriminate.
  - injection E as -> ->.
    destruct (edit_head H') as (t'' & _ & [E|[Hp E]]); subst; [eauto|discriminate].
  - injection E as -> ->; discriminate.
  - congruence.
  - destruct w as [|w0 [|w1 w]]; simpl in E.
    + injection E as -> ->; discriminate.
    + injection E as -> -> ->; congruence.
    + injection E as -> -> E; simpl in Hw.
      apply andb_prop in Hw as [Hw _].
      unfold nonspace in r_visible; rewrite Hw in r_visible; discriminate.
Qed.

Lemma space_run_prefix (w pre z rest : str) :
  forallb isspace w = true -> w ++ z = pre ++ l :: rest ->
  exists pre1, pre = w ++ pre1 /\ z = pre1 ++ l :: rest.
Proof.
  revert pre; induction w as [|w0 w IH]; intros pre Hw E.
  - exists pre; auto.
  - simpl in Hw; apply andb_prop in Hw as [Hw0 Hw].
    destruct pre as [|d pre]; simpl in E; injection E as -> E.
    + unfold nonspace in l_visible; rewrite Hw0 in l_visible; discriminate.
    + destruct (IH pre Hw E) as (pre1 & -> & E1); exists pre1; auto.
Qed.

(** An adjacent pair [l r] stays adjacent or gets one space between. *)
Lemma edit_pair (p : Z) (s t : str) :
  edit p s t ->
  forall pre post, s = pre ++ l :: r :: post ->
  exists pre' post',
    visible pre' = visible pre /\
    (t = pre' ++ l :: r :: post' \/ t = pre' ++ l :: 0x20 :: r :: post').
Proof.
  induction 1 as [p|p x s t H IH|p y s t Hp Hy H IH|p w s t Hp Hw H IH
                  |p w y s t Hw Hy H IH]; intros pre post E.
  - destruct pre; discriminate.
  - destruct pre as [|d pre]; simpl in E; injection E as -> ->.
    + destruct (edit_after_left H) as (t' & [->| ->]); exists [], t'; auto.
    + destruct (IH _ _ eq_refl) as (pre' & post' & Hv & Ht).
      exists (d :: pre'), post'; split; [apply visible_cons_eq, Hv|].
      destruct Ht as [->| ->]; auto.
  - destruct pre as [|d pre]; simpl in E; injection E as -> ->.
    + destruct (edit_after_left H) as (t' & [->| ->]); exists [0x20], t'; auto.
    + destruct (IH _ _ eq_refl) as (pre' & post' & Hv & Ht).
      exists (0x20 :: d :: pre'), post'; split.
      * rewrite visible_cons_space by reflexivity; apply visible_cons_eq, Hv.
      * destruct Ht as [->| ->]; auto.
  - destruct pre as [|d pre]; simpl in E; injection E as -> ->.
    + unfold nonspace in l_visible; rewrite Hw in l_visible; discriminate.
    + destruct (IH _ _ eq_refl) as (pre' & post' & Hv & Ht).
      exists pre', post'; split; [|exact Ht].
      rewrite visible_cons_space by exact Hw; exact Hv.
  - destruct (space_run_prefix w pre (y :: s) _ Hw E) as (pre1 & -> & E1).
    rewrite visible_app, (visible_spaces _ Hw); simpl.
    destruct pre1 as [|d pre1]; simpl in E1; injection E1 as -> ->.
    + destruct (edit_after_left H) as (t' & [->| ->]); exists [], t'; auto.
    + destruct (IH _ _ eq_refl) as (pre' & post' & Hv & Ht).
      exists (d :: pre'), post'; split; [apply visible_cons_eq, Hv|].
      destruct Ht as [->| ->]; auto.
Qed.

(** A pair with one space between stays so. *)
Lemma edit_spaced_pair (p : Z) (s t : str) :
  edit p s t ->
  forall pre post, s = pre ++ l :: 0x20 :: r :: post ->
  exists pre' post',
    visible pre' = visible pre /\ t = pre' ++ l :: 0x20 :: r :: post'.
Proof.
  induction 1 as [p|p x s t H IH|p y s t Hp Hy H IH|p w s t Hp Hw H IH
                  |p w y s t Hw Hy H IH]; intros pre post E.
  - destruct pre; discriminate.
  - destruct pre as [|d pre]; simpl in E; injection E as -> ->.
    + destruct (edit_after_left_spaced H) as (t' & ->); exists [], t'; auto.
    + destruct (IH _ _ eq_refl) as (pre' & post' & Hv & ->).
      exists (d :: pre'), post'; split; [apply visible_cons_eq, Hv|reflexivity].
  - destruct pre as [|d pre]; simpl in E; injection E as -> ->.
    + destruct (edit_after_left_spaced H) as (t' & ->); exists [0x20], t'; auto.
    + destruct (IH _ _ eq_refl) as (pre' & post' & Hv & ->).
      exists (0x20 :: d :: pre'), post'; split; [|reflexivity].
      rewrite visible_cons_space by reflexivity; apply visible_cons_eq, Hv.
  - destruct pre as [|d pre]; simpl in E; injection E as -> ->.
    + unfold nonspace in l_visible; rewrite Hw in l_visible; discriminate.
    + destruct (IH _ _ eq_refl) as (pre' & post' & Hv & ->).
      exists pre', post'; split; [|reflexivity].
      rewrite visible_cons_space by exact Hw; exact Hv.
  - destruct (space_run_prefix w pre (y :: s) _ Hw E) as (pre1 & -> & E1).
    rewrite visible_app, (visible_spaces _ Hw); simpl.
    destruct pre1 as [|d pre1]; simpl in E1; injection E1 as -> ->.
    + destruct (edit_after_left_spaced H) as (t' & ->); exists [], t'; auto.
    + destruct (IH _ _ eq_refl) as (pre' & post' & Hv & ->).
      exists (d :: pre'), post'; split; [apply visible_cons_eq, Hv|reflexivity].
Qed.
End Pair.

Section Stages.
Variables l r : Z.
Hypothesis l_visible : nonspace l = true.
Hypothesis r_visible : nonspace r = true.
Hypothesis l_not_opening : in_cls QUOTE_OPEN l = false.
Hypothesis r_not_closing : in_cls QUOTE_CLOSE r = false.

Lemma stage_spaced_pair (re : regex) (tpl : template) (pre s : str) :
  edits re tpl -> has_spaced_pair l r pre s ->
  has_spaced_pair l r pre (sub re tpl s).
Proof.
  intros K (pre1 & post1 & Hv & ->).
  destruct (edit_spaced_pair l r l_visible r_visible l_not_opening r_not_closing
              (sub_edit K (pre1 ++ l :: 0x20 :: r :: post1) 0x20) _ _ eq_refl)
    as (pre2 & post2 & Hv2 & E).
  exists pre2, post2; split; [congruence|exact E].
Qed.

Lemma stage_pair (re : regex) (tpl : template) (pre s : str) :
  edits re tpl -> has_pair l r pre s -> has_pair l r pre (sub re tpl s).
Proof.
  intros K (pre1 & post1 & Hv & [->| ->]).
  - destruct (edit_pair l r l_visible r_visible r_not_closing
                (sub_edit K (pre1 ++ l :: r :: post1) 0x20) _ _ eq_refl)
      as (pre2 & post2 & Hv2 & E).
    exists pre2, post2; split; [congruence|exact E].
  - destruct (edit_spaced_pair l r l_visible r_visible l_not_opening r_not_closing
                (sub_edit K (pre1 ++ l :: 0x20 :: r :: post1) 0x20) _ _ eq_refl)
      as (pre2 & post2 & Hv2 & E).
    exists pre2, post2; split; [congruence|auto].
Qed.

End Stages.

Lemma strip_spaced_pair (l r : Z) (pre s : str) :
  nonspace l = true -> nonspace r = true ->
  has_spaced_pair l r pre s -> has_spaced_pair l r pre (strip s).
Proof.
  intros Hl Hr (pre1 & post1 & Hv & E).
  destruct (strip_split s) as (wl & wr & Es & Hwl & Hwr).
  rewrite Es in E.
  destruct (space_run_prefix l Hl _ _ _ _ Hwl E) as (pre2 & -> & E2).
  apply (f_equal (@rev Z)) in E2.
  rewrite rev_app_distr in E2.
  change (pre2 ++ l :: 0x20 :: r :: post1)
    with (pre2 ++ [l; 0x20] ++ r :: post1) in E2.
  rewrite app_assoc, rev_app_distr in E2; simpl in E2.
  rewrite <- forallb_rev in Hwr.
  rewrite <- app_assoc in E2; simpl in E2.
  destruct (space_run_prefix r Hr _ _ _ _ Hwr E2) as (q & Eq & E3).
  apply (f_equal (@rev Z)) in E3.
  rewrite rev_involutive, rev_app_distr in E3; simpl in E3.
  rewrite rev_involutive in E3.
  exists pre2, (rev q); split.
  - rewrite <- Hv, visible_app, (visible_spaces _ Hwl); reflexivity.
  - rewrite E3, <- !app_assoc; reflexivity.
Qed.

(** ** A two-class pattern spaces every pair it matches *)

Section PairPattern.
Variables A B : list item.

Lemma match_at_pair (x y : Z) (s : str) :
  match_at (pair_re A B) (x :: y :: s) =
  if in_cls A x && in_cls B y
  then Some ([x; y], s, [(2%nat, [y]); (1%nat, [x])])
  else None.
Proof.
  unfold match_at, pair_re, one; cbn [run atom_match].
  destruct (in_cls A x), (in_cls B y); reflexivity.
Qed.

Variables l r : Z.
Hypothesis l_left : in_cls A l = true.
Hypothesis r_right : in_cls B r = true.
Hypothesis l_not_right : in_cls B l = false.

Lemma pair_re_spaces (pre post : str) :
  exists pre' post',
    visible pre' = visible pre /\
    sub (pair_re A B) T_1_2 (pre ++ l :: r :: post)
    = pre' ++ l :: 0x20 :: r :: post'.
Proof.
  remember (length pre) as n eqn:Hn.
  revert pre Hn; induction n as [n IH] using lt_wf_ind; intros pre Hn.
  destruct pre as [|d [|e pre]].
  - exists [], (sub (pair_re A B) T_1_2 post); split; [reflexivity|].
    simpl app.
    rewrite (@sub_replace _ T_1_2 _ [l; r] post [(2%nat, [r]); (1%nat, [l])]);
      [reflexivity| |discriminate].
    rewrite match_at_pair, l_left, r_right; reflexivity.
  - destruct (IH 0%nat ltac:(subst; simpl; lia) [] eq_refl)
      as (pre' & post' & Hv & E).
    exists (d :: pre'), post'; split; [apply visible_cons_eq, Hv|].
    simpl app in *.
    rewrite sub_copy by (rewrite match_at_pair, l_not_right, andb_false_r; reflexivity).
    rewrite E; reflexivity.
  - simpl app.
    destruct (in_cls A d && in_cls B e) eqn:Hde.
    + destruct (IH (length pre) ltac:(subst; simpl; lia) pre eq_refl)
        as (pre' & post' & Hv & E).
      exists (d :: 0x20 :: e :: pre'), post'; split.
      * apply visible_cons_eq.
        rewrite visible_cons_space by reflexivity.
        apply visible_cons_eq, Hv.
      * rewrite (@sub_replace _ T_1_2 _ [d; e] (pre ++ l :: r :: post)
                   [(2%nat, [e]); (1%nat, [d])]);
          [rewrite E; reflexivity| |discriminate].
        rewrite match_at_pair, Hde; reflexivity.
    + destruct (IH (S (length pre)) ltac:(subst; simpl; lia) (e :: pre) eq_refl)
        as (pre' & post' & Hv & E).
      exists (d :: pre'), post'; split; [apply visible_cons_eq, Hv|].
      rewrite sub_copy by (rewrite match_at_pair, Hde; reflexivity).
      simpl app in E; rewrite E; reflexivity.
Qed.
End PairPattern.


Lemma before_general_pair (l r : Z) (pre text : str) :
  nonspace l = true -> nonspace r = true ->
  in_cls QUOTE_OPEN l = false -> in_cls QUOTE_CLOSE r = false ->
  has_pair l r pre text -> has_pair l r pre (before_general text).
Proof.
  intros Hl Hr Hlo Hrc H.
  assert (S : forall re tpl s, edits re tpl -> has_pair l r pre s ->
                               has_pair l r pre (sub re tpl s))
    by (intros; apply stage_pair; assumption).
  unfold before_general, before_brackets, collapse, single_sided; cbv zeta.
  apply S; [exact edits_FIX_SYMBOL|].
  apply S; [exact edits_FIX_BRACKET|].
  match goal with |- context [if ?b then _ else _] => destruct b end;
    repeat (apply S;
            [first [ exact edits_BRACKET_CJK | exact edits_CJK_BRACKET
                   | exact edits_CJK_BRACKET_CJK | exact edits_ANS_OPERATOR_CJK
                   | exact edits_CJK_OPERATOR_ANS | exact edits_HASH_CJK
                   | exact edits_CJK_HASH | exact edits_FIX_SINGLE_QUOTE
                   | exact edits_FIX_QUOTE | exact edits_QUOTE_CJK
                   | exact edits_CJK_QUOTE ]|]);
    exact H.
Qed.

Lemma pair_in_context (l r : Z) (pre post : str) :
  has_pair l r pre (pre ++ l :: r :: post).
Proof. exists pre, post; auto. Qed.

Lemma cjk_then_ans_in_context (c a : Z) (pre post : str) :
  in_cls CJK c = true -> in_cls ANS_AFTER_CJK a = true ->
  has_spaced_pair c a pre (spacing_text (pre ++ c :: a :: post)).
Proof.
  intros Hc Ha.
  assert (Hcv : nonspace c = true) by solve_char.
  assert (Hav : nonspace a = true) by solve_char.
  assert (Hco : in_cls QUOTE_OPEN c = false) by solve_char.
  assert (Hac : in_cls QUOTE_CLOSE a = false) by solve_char.
  rewrite spacing_text_rules by (rewrite length_app; simpl; lia).
  apply strip_spaced_pair; try assumption.
  rewrite rules_general.
  apply stage_spaced_pair; try assumption; [exact edits_ANS_CJK|].
  destruct (before_general_pair Hcv Hav Hco Hac (pair_in_context c a pre post))
    as (pre1 & post1 & Hv & [E|E]); rewrite E.
  - destruct (@pair_re_spaces CJK ANS_AFTER_CJK c a Hc Ha ltac:(solve_char) pre1 post1)
      as (pre2 & post2 & Hv2 & E2).
    exists pre2, post2; split; [congruence|exact E2].
  - apply stage_spaced_pair; try assumption; [exact edits_CJK_ANS|].
    exists pre1, post1; auto.
Qed.

Lemma ans_then_cjk_in_context (c a : Z) (pre post : str) :
  in_cls CJK c = true -> in_cls ANS_BEFORE_CJK a = true ->
  has_spaced_pair a c pre (spacing_text (pre ++ a :: c :: post)).
Proof.
  intros Hc Ha.
  assert (Hcv : nonspace c = true) by solve_char.
  assert (Hav : nonspace a = true) by solve_char.
  assert (Hao : in_cls QUOTE_OPEN a = false) by solve_char.
  assert (Hcc : in_cls QUOTE_CLOSE c = false) by solve_char.
  rewrite spacing_text_rules by (rewrite length_app; simpl; lia).
  apply strip_spaced_pair; try assumption.
  rewrite rules_general.
  pose proof (stage_pair Hav Hcv Hao Hcc edits_CJK_ANS
                (before_general_pair Hav Hcv Hao Hcc (pair_in_context a c pre post)))
    as (pre1 & post1 & Hv & [E|E]); rewrite E.
  - destruct (@pair_re_spaces ANS_BEFORE_CJK CJK a c Ha Hc ltac:(solve_char) pre1 post1)
      as (pre2 & post2 & Hv2 & E2).
    exists pre2, post2; split; [congruence|exact E2].
  - apply stage_spaced_pair; try assumption; [exact edits_ANS_CJK|].
    exists pre1, post1; auto.
Qed.

(** ** The pipeline on a pair of characters

    Symbolic evaluation, one substitution at a time: each class test on a
    variable is settled from the hypotheses, or split when they leave it
    open. *)

Ltac decide_test t :=
  let E := fresh "E" in
  first [ assert (E : t = true) by solve_cls; rewrite E; clear E
        | assert (E : t = false) by solve_cls; rewrite E; clear E
        | destruct t eqn:E ].

Ltac eval_pattern_step :=
  cbn [sub sub_from match_at run rep_greedy rep_lazy atom_match orelse
       expand group Nat.eqb length app pred one Plus Star PlusLazy StarLazy
       T_1_2 T_1_3 T_135 T_134 T_1_2_3 T_1_2_4 T_12_3 SP
       CJK_QUOTE_RE QUOTE_CJK_RE FIX_QUOTE_RE FIX_SINGLE_QUOTE_RE CJK_HASH_RE
       HASH_CJK_RE CJK_OPERATOR_ANS_RE ANS_OPERATOR_CJK_RE CJK_BRACKET_CJK_RE
       CJK_BRACKET_RE BRACKET_CJK_RE FIX_BRACKET_RE FIX_SYMBOL_RE CJK_ANS_RE
       ANS_CJK_RE negb andb lstrip strip rstrip rev].

Ltac eval_tests :=
  repeat (eval_pattern_step;
    match goal with
    | |- context [in_cls ?X ?v] => decide_test (in_cls X v)
    | |- context [isspace ?v] => decide_test (isspace v)
    | |- context [nonspace ?v] => decide_test (nonspace v)
    | |- context [Z.eqb ?v ?k] => decide_test (Z.eqb v k)
    end);
  eval_pattern_step.

Ltac eval_stage :=
  match goal with
  | |- context [sub ?R ?T (@cons Z ?x ?l)] =>
      let r := fresh "r" in
      let E := fresh "E" in
      evar (r : str);
      assert (E : sub R T (x :: l) = r) by (subst r; eval_tests; reflexivity);
      subst r; rewrite E; clear E
  | |- context [strip (@cons Z ?x ?l)] =>
      let r := fresh "r" in
      let E := fresh "E" in
      evar (r : str);
      assert (E : strip (x :: l) = r) by (subst r; eval_tests; reflexivity);
      subst r; rewrite E; clear E
  end.

Ltac eval_pair :=
  rewrite spacing_text_rules by (simpl; lia);
  unfold rules, before_brackets, collapse, single_sided, after_brackets;
  cbv zeta;
  repeat (eval_stage; rewrite ?text_eqb_refl); try reflexivity.

Lemma cjk_then_quote (c q : Z) :
  in_cls CJK c = true -> in_cls QUOTE q = true ->
  spacing_text [c; q] = [c; 0x20; q].
Proof.
  intros Hc Hq; eval_pair.
Qed.

Lemma quote_then_cjk (c q : Z) :
  in_cls CJK_OF_QUOTE_CJK c = true -> in_cls QUOTE q = true ->
  spacing_text [q; c] = [q; 0x20; c].
Proof.
  intros Hc Hq; eval_pair.
Qed.

(** The CJK characters [QUOTE_CJK_RE] leaves out are exactly the two
    radical ranges. *)
Lemma CJK_split (c : Z) :
  in_cls CJK c = in_cls RADICALS c || in_cls CJK_OF_QUOTE_CJK c.
Proof. solve_cls. Qed.

Lemma quote_then_radical (c q : Z) :
  in_cls RADICALS c = true -> in_cls QUOTE q = true ->
  spacing_text [q; c] = [q; c].
Proof.
  intros Hc Hq; eval_pair.
Qed.

(** C5, at U+2E80 (CJK RADICAL REPEAT), which is in the CJK ranges: a
    quote after it is set off by a space, a quote before it is not, neither
    by the two quote substitutions nor by the whole of [spacing_text]. *)
Theorem quote_before_radical_unspaced :
  in_cls CJK 0x2e80 = true /\
  spacing_text [0x2e80; 0x22] = [0x2e80; 0x20; 0x22] /\
  sub QUOTE_CJK_RE T_1_2 (sub CJK_QUOTE_RE T_1_2 [0x22; 0x2e80])
    = [0x22; 0x2e80] /\
  spacing_text [0x22; 0x2e80] = [0x22; 0x2e80].
Proof. repeat split; vm_compute; reflexivity. Qed.

Lemma cjk_then_ans (c a : Z) :
  in_cls CJK c = true -> in_cls ANS_AFTER_CJK a = true ->
  spacing_text [c; a] = [c; 0x20; a].
Proof.
  intros Hc Ha; eval_pair.
Qed.

Lemma ans_then_cjk (c a : Z) :
  in_cls CJK c = true -> in_cls ANS_BEFORE_CJK a = true ->
  spacing_text [a; c] = [a; 0x20; c].
Proof.
  intros Hc Ha; eval_pair.
Qed.

(** The classes of the two patterns against the ANS class of the
    specification. *)
Lemma ANS_AFTER_CJK_spec (a : Z) :
  in_cls ANS_AFTER_CJK a =
  in_cls ANS_SPEC a && negb (a =? 0x7e) && negb (a =? 0x2026).
Proof. solve_cls. Qed.

Lemma ANS_BEFORE_CJK_spec (a : Z) :
  in_cls ANS_BEFORE_CJK a =
  in_cls ANS_SPEC a && negb (a =? 0x40) ||
  in_cls [Ch 0x21; Ch 0x3b; Ch 0x3a; Ch 0x2c; Ch 0x2e; Ch 0x3f] a.
Proof. solve_cls. Qed.

(** C2, as stated, fails: U+4E2D is CJK and the tilde, the ellipsis and
    the at sign are ANS, yet no space comes between them in these three
    texts. *)
Lemma ans_pairs_left_unspaced :
  in_cls CJK 0x4e2d = true /\
  in_cls ANS_SPEC 0x7e = true /\ spacing_text [0x4e2d; 0x7e] = [0x4e2d; 0x7e] /\
  in_cls ANS_SPEC 0x2026 = true /\ spacing_text [0x4e2d; 0x2026] = [0x4e2d; 0x2026] /\
  in_cls ANS_SPEC 0x40 = true /\ spacing_text [0x40; 0x4e2d] = [0x40; 0x4e2d].
Proof. repeat split; vm_compute; reflexivity. Qed.

(** C2, amended. Let [c] be CJK and [a] in the ANS class of the
    specification.  Unless [a] is the tilde or U+2026, wherever [c] is
    directly followed by [a] in the input, the output has [c], one space,
    [a] at that place; unless [a] is the at sign, wherever [a] is directly
    followed by [c], the output has [a], one space, [c] at that place.  In
    particular the text made of the pair alone becomes the pair with one
    space between. *)
Theorem cjk_ans_spacing (c a : Z) (pre post : str) :
  in_cls CJK c = true -> in_cls ANS_SPEC a = true ->
  (a <> 0x7e -> a <> 0x2026 ->
   has_spaced_pair c a pre (spacing_text (pre ++ c :: a :: post)) /\
   spacing_text [c; a] = [c; 0x20; a]) /\
  (a <> 0x40 ->
   has_spaced_pair a c pre (spacing_text (pre ++ a :: c :: post)) /\
   spacing_text [a; c] = [a; 0x20; c]).
Proof.
  intros Hc Ha; split.
  - intros H1 H2.
    assert (Ha' : in_cls ANS_AFTER_CJK a = true).
    { rewrite ANS_AFTER_CJK_spec, Ha.
      apply Z.eqb_neq in H1, H2; rewrite H1, H2; reflexivity. }
    split; [apply cjk_then_ans_in_context | apply cjk_then_ans]; assumption.
  - intros H1.
    assert (Ha' : in_cls ANS_BEFORE_CJK a = true).
    { rewrite ANS_BEFORE_CJK_spec, Ha.
      apply Z.eqb_neq in H1; rewrite H1; reflexivity. }
    split; [apply ans_then_cjk_in_context | apply ans_then_cjk]; assumption.
Qed.

Lemma cjk_ans_spacing_witness :
  let c := 0x4e2d in
  let a := 0x2b in
  let pre := [0x28; 0x20] in
  let post := [0x29] in
  in_cls CJK c = true /\ in_cls ANS_SPEC a = true /\
  a <> 0x7e /\ a <> 0x2026 /\ a <> 0x40 /\
  has_spaced_pair c a pre (spacing_text (pre ++ c :: a :: post)) /\
  spacing_text [c; a] = [c; 0x20; a] /\
  has_spaced_pair a c pre (spacing_text (pre ++ a :: c :: post)) /\
  spacing_text [a; c] = [a; 0x20; c].
Proof.
  intros c a pre post.
  assert (Hc : in_cls CJK c = true) by reflexivity.
  assert (Ha : in_cls ANS_SPEC a = true) by reflexivity.
  assert (H1 : a <> 0x7e) by (subst a; lia).
  assert (H2 : a <> 0x2026) by (subst a; lia).
  assert (H3 : a <> 0x40) by (subst a; lia).
  destruct (cjk_ans_spacing c a pre post Hc Ha) as [Hca Hac].
  destruct (Hca H1 H2) as [Hca1 Hca2].
  destruct (Hac H3) as [Hac1 Hac2].
  repeat (split; [assumption|]); assumption.
Defined.

(** ** The cleanup patterns on spans *)

Lemma not_all_space (p q : str) :
  q <> [] -> nonspace (hd 0x20 (rev (p ++ q))) = true ->
  forallb isspace q = false.
Proof.
  intros Hq Hlast.
  destruct (forallb isspace q) eqn:Hw; [|reflexivity].
  rewrite rev_app_distr in Hlast.
  rewrite <- forallb_rev in Hw.
  destruct (rev q) as [|e r] eqn:Er.
  - apply (f_equal (@rev Z)) in Er; rewrite rev_involutive in Er; contradiction.
  - simpl in Hlast, Hw; unfold nonspace in Hlast.
    apply andb_prop in Hw as [He _]; rewrite He in Hlast; discriminate.
Qed.

(** A whitespace prefix of a text that starts with [q] ends inside [q]
    when [q] does not end with whitespace. *)
Lemma space_prefix_inside (p q tail w z : str) :
  q <> [] -> nonspace (hd 0x20 (rev (p ++ q))) = true ->
  q ++ tail = w ++ z -> forallb isspace w = true ->
  exists d q', q = w ++ d :: q' /\ z = d :: q' ++ tail.
Proof.
  intros Hq Hlast E Hw.
  pose proof (not_all_space p Hq Hlast) as Hns.
  apply app_eq_app in E as [l [[-> ->]|[-> ->]]].
  - destruct l as [|d q'].
    + rewrite app_nil_r, Hw in Hns; discriminate.
    + exists d, q'; split; reflexivity.
  - rewrite forallb_app in Hw; apply andb_prop in Hw as [Hw _].
    rewrite Hw in Hns; discriminate.
Qed.

Section Cleanup.
Variables O C : list item.
Hypothesis O_not_space : forall x, in_cls O x = true -> isspace x = false.
Hypothesis C_not_space : forall x, in_cls C x = true -> isspace x = false.

Lemma plain_dot (u : str) :
  forallb (plain O C) u = true -> forallb (atom_match Dot) u = true.
Proof.
  apply forallb_impl; intros x Hx; unfold plain in Hx.
  apply andb_prop in Hx as [Hx _]; apply andb_prop in Hx as [Hx _]; exact Hx.
Qed.

Lemma plain_not_closing (x : Z) : plain O C x = true -> in_cls C x = false.
Proof.
  unfold plain; intros Hx; apply andb_prop in Hx as [_ Hx].
  apply negb_true_iff in Hx; exact Hx.
Qed.

Lemma plain_not_opening (x : Z) : plain O C x = true -> in_cls O x = false.
Proof.
  unfold plain; intros Hx; apply andb_prop in Hx as [Hx _].
  apply andb_prop in Hx as [_ Hx]; apply negb_true_iff in Hx; exact Hx.
Qed.

Lemma space_not_opening (x : Z) : isspace x = true -> in_cls O x = false.
Proof.
  intros Hx; destruct (in_cls O x) eqn:E; [|reflexivity].
  rewrite (O_not_space _ E) in Hx; discriminate.
Qed.

(** Inside the content no shorter third group lets the rest of the
    pattern match. *)
Lemma fix_re_not_shorter (R : Type) (u p q tail : str)
      (k : str -> str -> str -> option R) :
  forallb (plain O C) u = true -> nonspace (hd 0x20 (rev u)) = true ->
  u = p ++ q -> q <> [] ->
  rep_greedy Space 0 (q ++ tail)
    (fun w z => rep_greedy (Set_ C) 1 z (k w)) = None.
Proof.
  intros Hu Hlast -> Hq.
  apply rep_greedy_none; intros w z E Hw _.
  apply rep_greedy_none; intros y z' E' Hy Hmin.
  destruct (space_prefix_inside p tail w z Hq Hlast E Hw) as (d & q' & -> & ->).
  destruct y as [|e y]; [simpl in Hmin; lia|].
  injection E' as <- _.
  simpl in Hy; apply andb_prop in Hy as [Hd _].
  rewrite !forallb_app in Hu; simpl in Hu.
  apply andb_prop in Hu as [_ Hu]; apply andb_prop in Hu as [_ Hu].
  apply andb_prop in Hu as [Hu _].
  rewrite (plain_not_closing _ Hu) in Hd; discriminate.
Qed.

Lemma fix_re_span (sp : span) (rest : str) :
  span_ok O C sp = true -> stops (Set_ C) rest = true ->
  match_at (fix_re O C) (raw sp ++ rest) = Some (raw sp, rest, span_caps sp).
Proof.
  destruct sp as [o wl u wr c]; unfold span_ok, raw, span_caps;
    cbn [opening pad_left content pad_right closing].
  intros Hok Hrest.
  repeat (apply andb_prop in Hok as [Hok ?]).
  rename Hok into Ho.
  change ((o :: wl ++ u ++ wr ++ [c]) ++ rest)
    with (o :: (wl ++ u ++ wr ++ [c]) ++ rest).
  repeat rewrite <- app_assoc.
  destruct u as [|x0 u']; [discriminate|].
  assert (Hx0 : isspace x0 = false)
    by (apply negb_true_iff; assumption).
  unfold match_at, fix_re, Plus, Star, PlusLazy; cbn [run].
  apply (@rep_greedy_longest _ (Set_ O) [o] _); [simpl; rewrite Ho; reflexivity| |simpl; lia|].
  { destruct wl as [|w wl]; simpl.
    - simpl in H1; apply andb_prop in H1 as [H1 _].
      rewrite (plain_not_opening _ H1); reflexivity.
    - simpl in H3; apply andb_prop in H3 as [H3 _].
      rewrite (space_not_opening _ H3); reflexivity. }
  apply (@rep_greedy_longest _ (Space) wl _); [assumption| |lia|].
  { simpl; unfold nonspace in H0; exact H0. }
  apply (@rep_lazy_shortest _ Dot (x0 :: u') _); [apply plain_dot; assumption|simpl; lia| |].
  { intros p q E Hq. eapply fix_re_not_shorter with (k := fun w y z => _); eauto. }
  apply (@rep_greedy_longest _ (Space) wr _); [assumption| |lia|].
  { simpl; rewrite (C_not_space _ H4); reflexivity. }
  apply (@rep_greedy_longest _ (Set_ C) [c] _); [simpl; rewrite H4; reflexivity|exact Hrest|simpl; lia|].
  reflexivity.
Qed.
Lemma fix_re_needs_opening (s : str) :
  match s with [] => True | x :: _ => in_cls O x = false end ->
  match_at (fix_re O C) s = None.
Proof.
  intros Hs; apply match_at_none; intros x rest cs E M.
  unfold fix_re, Plus in M; inversion M as [| |? ? x1 x2 ? ? ? M1 M2|]; subst.
  inversion M1 as [| | |? ? ? ? ? Mo]; subst.
  inversion Mo as [|? ? ? ? ? Hx1 Hmin| |]; subst.
  destruct x1 as [|d x1]; [simpl in Hmin; lia|].
  simpl in Hx1; apply andb_prop in Hx1 as [Hd _].
  simpl in Hs; rewrite Hs in Hd; discriminate.
Qed.

Lemma fix_re_no_opening (gap s : str) :
  no_opening O gap = true ->
  sub (fix_re O C) T_135 (gap ++ s) = gap ++ sub (fix_re O C) T_135 s.
Proof.
  induction gap as [|x gap IH]; intros Hgap; [reflexivity|].
  simpl in Hgap; apply andb_prop in Hgap as [Hx Hgap].
  apply negb_true_iff in Hx.
  simpl; rewrite sub_copy by (apply fix_re_needs_opening; exact Hx).
  rewrite IH by exact Hgap; reflexivity.
Qed.

Lemma fix_re_spans (s t : str) :
  spans_text O C s t -> sub (fix_re O C) T_135 s = t.
Proof.
  induction 1 as [t Ht|gap sp s t Hgap Hsp Hstop _ IH].
  - rewrite <- (app_nil_r t) at 1.
    rewrite fix_re_no_opening by exact Ht.
    rewrite sub_nil by (apply fix_re_needs_opening; exact I).
    apply app_nil_r.
  - rewrite fix_re_no_opening by exact Hgap.
    rewrite (@sub_replace (fix_re O C) T_135 _ _ _ _ (fix_re_span sp s Hsp Hstop))
      by discriminate.
    rewrite IH; unfold tight; simpl; rewrite <- app_assoc; reflexivity.
Qed.
End Cleanup.

Lemma FIX_QUOTE_RE_shape : FIX_QUOTE_RE = fix_re QUOTE_OPEN QUOTE_CLOSE.
Proof. reflexivity. Qed.

Lemma FIX_BRACKET_RE_shape : FIX_BRACKET_RE = fix_re BRACKET_OPEN BRACKET_CLOSE.
Proof. reflexivity. Qed.

Lemma delimiter_not_space (x : Z) :
  in_cls QUOTE_OPEN x = true \/ in_cls QUOTE_CLOSE x = true \/
  in_cls BRACKET_OPEN x = true \/ in_cls BRACKET_CLOSE x = true ->
  isspace x = false.
Proof. intros H; solve_cls. Qed.

(** C10, as stated, fails on spans that are not well formed.  On
    () x ( b ) the bracket cleanup has one match, from the first opening
    to the last closing bracket: the content cannot be empty, so the
    first closing bracket is taken as content; the padding after the
    second opening bracket stays.  On "it's" x " b " the apostrophe closes
    the first span, and the quote cleanup takes the second and third
    quote for a span of their own. *)
Lemma cleanup_pairs_across_spans :
  let brackets := [0x28; 0x29; 0x20; 0x78; 0x20; 0x28; 0x20; 0x62; 0x20; 0x29] in
  let quotes := [0x22; 0x69; 0x74; 0x27; 0x73; 0x22; 0x20; 0x78; 0x20; 0x22;
                 0x20; 0x62; 0x20; 0x22] in
  match_at FIX_BRACKET_RE brackets
  = Some (brackets, [],
          [(5%nat, [0x29]); (4%nat, [0x20]);
           (3%nat, [0x29; 0x20; 0x78; 0x20; 0x28; 0x20; 0x62]);
           (2%nat, []); (1%nat, [0x28])]) /\
  sub FIX_BRACKET_RE T_135 brackets
  = [0x28; 0x29; 0x20; 0x78; 0x20; 0x28; 0x20; 0x62; 0x29] /\
  spacing_text brackets
  = [0x28; 0x29; 0x20; 0x78; 0x20; 0x28; 0x20; 0x62; 0x29] /\
  sub FIX_QUOTE_RE T_135 quotes
  = [0x22; 0x69; 0x74; 0x27; 0x73; 0x22; 0x78; 0x22; 0x20; 0x62; 0x20; 0x22].
Proof. repeat split; vm_compute; reflexivity. Qed.

(** C10, amended. On a text made of well-formed spans (one opening
    delimiter, whitespace, a content that is not empty, on one line,
    without delimiter and without whitespace at its ends, whitespace, one
    closing delimiter), each preceded by text without an opening delimiter
    and not directly followed by a closing one, the quote cleanup and the
    bracket cleanup remove the padding of every span and nothing else:
    each span is matched on its own. *)
Theorem cleanup_per_span (s t : str) :
  (spans_text QUOTE_OPEN QUOTE_CLOSE s t -> sub FIX_QUOTE_RE T_135 s = t) /\
  (spans_text BRACKET_OPEN BRACKET_CLOSE s t -> sub FIX_BRACKET_RE T_135 s = t).
Proof.
  split; intros H.
  - rewrite FIX_QUOTE_RE_shape; apply fix_re_spans; auto using delimiter_not_space.
  - rewrite FIX_BRACKET_RE_shape; apply fix_re_spans; auto using delimiter_not_space.
Qed.

Lemma cleanup_per_span_witness :
  (* ( a ) x ( b )  and  " a " x ' b ' *)
  sub FIX_BRACKET_RE T_135
      [0x28; 0x20; 0x61; 0x20; 0x29; 0x20; 0x78; 0x20; 0x28; 0x20; 0x62; 0x20; 0x29]
    = [0x28; 0x61; 0x29; 0x20; 0x78; 0x20; 0x28; 0x62; 0x29] /\
  sub FIX_QUOTE_RE T_135
      [0x22; 0x20; 0x61; 0x20; 0x22; 0x20; 0x78; 0x20; 0x27; 0x20; 0x62; 0x20; 0x27]
    = [0x22; 0x61; 0x22; 0x20; 0x78; 0x20; 0x27; 0x62; 0x27].
Proof.
  split.
  - apply (proj2 (cleanup_per_span _ _)).
    apply (@st_span BRACKET_OPEN BRACKET_CLOSE [] (Span 0x28 [0x20] [0x61] [0x20] 0x29)
             [0x20; 0x78; 0x20; 0x28; 0x20; 0x62; 0x20; 0x29]
             [0x20; 0x78; 0x20; 0x28; 0x62; 0x29]);
      try reflexivity.
    apply (@st_span BRACKET_OPEN BRACKET_CLOSE [0x20; 0x78; 0x20]
             (Span 0x28 [0x20] [0x62] [0x20] 0x29) [] []);
      try reflexivity.
    apply st_tail; reflexivity.
  - apply (proj1 (cleanup_per_span _ _)).
    apply (@st_span QUOTE_OPEN QUOTE_CLOSE [] (Span 0x22 [0x20] [0x61] [0x20] 0x22)
             [0x20; 0x78; 0x20; 0x27; 0x20; 0x62; 0x20; 0x27]
             [0x20; 0x78; 0x20; 0x27; 0x62; 0x27]);
      try reflexivity.
    apply (@st_span QUOTE_OPEN QUOTE_CLOSE [0x20; 0x78; 0x20]
             (Span 0x27 [0x20] [0x62] [0x20] 0x27) [] []);
      try reflexivity.
    apply st_tail; reflexivity.
Defined.

(** On ( a ) x ( b ) the first match is the first span alone, not the
    stretch from the first opening to the last closing bracket. *)
Example cleanup_first_match :
  match_at FIX_BRACKET_RE
    [0x28; 0x20; 0x61; 0x20; 0x29; 0x20; 0x78; 0x20; 0x28; 0x20; 0x62; 0x20; 0x29]
  = Some ([0x28; 0x20; 0x61; 0x20; 0x29],
          [0x20; 0x78; 0x20; 0x28; 0x20; 0x62; 0x20; 0x29],
          [(5%nat, [0x29]); (4%nat, [0x20]); (3%nat, [0x61]); (2%nat, [0x20]);
           (1%nat, [0x28])]).
Proof. vm_compute; reflexivity. Qed.

(** * More of the pipeline

    ** Whitespace-only text *)

(** X1. A text of at least two characters, all of them whitespace, comes
    out empty. *)
Theorem spacing_text_all_space (text : str) :
  (2 <= length text)%nat -> forallb isspace text = true ->
  spacing_text text = [].
Proof.
  intros Hlen Hws.
  rewrite (spacing_text_rules _ Hlen).
  destruct (strip (rules text)) as [|c t] eqn:E; [reflexivity|].
  pose proof (strip_head _ E) as Hc.
  pose proof (respacing_visible
                (respacing_trans (rules_respacing text) (strip_respacing _))) as Hv.
  rewrite E, (visible_spaces _ Hws) in Hv.
  unfold visible, nonspace in Hv; simpl in Hv; rewrite Hc in Hv; discriminate.
Qed.

Lemma spacing_text_all_space_witness :
  let text := [0x20; 0x09; 0x3000] in
  (2 <= length text)%nat /\ forallb isspace text = true /\
  spacing_text text = [].
Proof.
  intros text.
  assert (H1 : (2 <= length text)%nat) by (simpl; lia).
  assert (H2 : forallb isspace text = true) by reflexivity.
  split; [exact H1|]. split; [exact H2|].
  exact (spacing_text_all_space text H1 H2).
Defined.

(** ** Text without CJK characters *)

Lemma has_cjk_app (x y : str) :
  existsb (in_cls CJK) (x ++ y) = existsb (in_cls CJK) x || existsb (in_cls CJK) y.
Proof. apply existsb_app. Qed.

Lemma no_cjk_spec (s : str) : no_cjk s = negb (existsb (in_cls CJK) s).
Proof.
  unfold no_cjk; induction s as [|x s IH]; [reflexivity|].
  cbn [forallb existsb]; rewrite IH; symmetry; apply negb_orb.
Qed.

Lemma quote_cjk_is_cjk (x : Z) : in_cls CJK_OF_QUOTE_CJK x = true -> in_cls CJK x = true.
Proof. intros H; solve_cls. Qed.

Ltac unfold_patterns H :=
  unfold CJK_QUOTE_RE, QUOTE_CJK_RE, FIX_SINGLE_QUOTE_RE,
    CJK_HASH_RE, HASH_CJK_RE, CJK_OPERATOR_ANS_RE, ANS_OPERATOR_CJK_RE,
    CJK_BRACKET_CJK_RE, CJK_BRACKET_RE, BRACKET_CJK_RE,
    FIX_SYMBOL_RE, CJK_ANS_RE, ANS_CJK_RE, one, Plus, Star, PlusLazy,
    StarLazy in H.

Lemma cjk_patterns_need_cjk :
  Forall (fun re => forall x cs, matches re x [] cs ->
                    existsb (in_cls CJK) x = true) cjk_patterns.
Proof.
  unfold cjk_patterns; repeat (apply Forall_cons; [|]); [..|apply Forall_nil];
    intros x cs M; unfold_patterns M;
    invert_matches; cbn [atom_match] in *;
    repeat rewrite has_cjk_app; cbn [existsb];
    repeat match goal with
    | H : in_cls CJK_OF_QUOTE_CJK _ = true |- _ => apply quote_cjk_is_cjk in H
    end;
    repeat match goal with
    | H : in_cls CJK _ = true |- _ => rewrite H; clear H
    end;
    rewrite ?orb_true_r; reflexivity.
Qed.

Lemma no_cjk_no_match (re : regex) (s : str) :
  (forall x cs, matches re x [] cs -> existsb (in_cls CJK) x = true) ->
  no_cjk s = true -> match_at re s = None.
Proof.
  intros K Hs; apply match_at_none; intros x rest cs -> M.
  rewrite no_cjk_spec, has_cjk_app, (K _ _ M) in Hs; discriminate.
Qed.

Lemma no_cjk_sub (re : regex) (tpl : template) (s : str) :
  (forall x cs, matches re x [] cs -> existsb (in_cls CJK) x = true) ->
  no_cjk s = true -> sub re tpl s = s.
Proof.
  intros K; induction s as [|c s IH]; intros Hs.
  - apply sub_nil, no_cjk_no_match; auto.
  - rewrite sub_copy by (apply no_cjk_no_match; auto).
    unfold no_cjk in Hs; simpl in Hs; apply andb_prop in Hs as [_ Hs].
    rewrite IH by exact Hs; reflexivity.
Qed.

Lemma respacing_no_cjk (s t : str) :
  respacing s t -> no_cjk s = true -> no_cjk t = true.
Proof.
  unfold no_cjk; induction 1 as [s|a b t H IH|a w b t Hw H IH]; intros Hs;
    [exact Hs| |]; apply IH; rewrite forallb_app in *; simpl in *.
  - exact Hs.
  - apply andb_prop in Hs as [Ha Hb]; apply andb_prop in Hb as [_ Hb].
    rewrite Ha, Hb; reflexivity.
Qed.

Tactic Notation "cjk_pattern" integer(n) :=
  let H := fresh in
  pose proof cjk_patterns_need_cjk as H; unfold cjk_patterns in H;
  do n (apply Forall_inv_tail in H); apply Forall_inv in H; exact H.

(** X2. On a text without a CJK character only the two cleanup
    substitutions and the strip do anything. *)
Theorem spacing_text_no_cjk (text : str) :
  (2 <= length text)%nat -> no_cjk text = true ->
  spacing_text text
  = strip (sub FIX_BRACKET_RE T_135 (sub FIX_QUOTE_RE T_135 text)).
Proof.
  intros Hlen Hs.
  rewrite (spacing_text_rules _ Hlen).
  unfold rules, before_brackets, collapse, single_sided, after_brackets;
    cbv zeta.
  rewrite (@no_cjk_sub CJK_QUOTE_RE T_1_2 text) by (assumption || cjk_pattern 0).
  rewrite (@no_cjk_sub QUOTE_CJK_RE T_1_2 text) by (assumption || cjk_pattern 1).
  set (t1 := sub FIX_QUOTE_RE T_135 text).
  assert (H1 : no_cjk t1 = true)
    by (exact (respacing_no_cjk (sub_respacing text edits_FIX_QUOTE) Hs)).
  rewrite (@no_cjk_sub FIX_SINGLE_QUOTE_RE T_134 t1) by (assumption || cjk_pattern 2).
  rewrite (@no_cjk_sub CJK_HASH_RE T_1_2 t1) by (assumption || cjk_pattern 3).
  rewrite (@no_cjk_sub HASH_CJK_RE T_1_3 t1) by (assumption || cjk_pattern 4).
  rewrite (@no_cjk_sub CJK_OPERATOR_ANS_RE T_1_2_3 t1) by (assumption || cjk_pattern 5).
  rewrite (@no_cjk_sub ANS_OPERATOR_CJK_RE T_1_2_3 t1) by (assumption || cjk_pattern 6).
  rewrite (@no_cjk_sub CJK_BRACKET_CJK_RE T_1_2_4 t1) by (assumption || cjk_pattern 7).
  rewrite text_eqb_refl.
  rewrite (@no_cjk_sub CJK_BRACKET_RE T_1_2 t1) by (assumption || cjk_pattern 8).
  rewrite (@no_cjk_sub BRACKET_CJK_RE T_1_2 t1) by (assumption || cjk_pattern 9).
  set (t2 := sub FIX_BRACKET_RE T_135 t1).
  assert (H2 : no_cjk t2 = true)
    by (exact (respacing_no_cjk (sub_respacing t1 edits_FIX_BRACKET) H1)).
  rewrite (@no_cjk_sub FIX_SYMBOL_RE T_12_3 t2) by (assumption || cjk_pattern 10).
  rewrite (@no_cjk_sub CJK_ANS_RE T_1_2 t2) by (assumption || cjk_pattern 11).
  rewrite (@no_cjk_sub ANS_CJK_RE T_1_2 t2) by (assumption || cjk_pattern 12).
  reflexivity.
Qed.

Lemma spacing_text_no_cjk_witness :
  let text := [0x28; 0x20; 0x61; 0x20; 0x29; 0x62] in   (* ( a )b *)
  (2 <= length text)%nat /\ no_cjk text = true /\
  spacing_text text
  = strip (sub FIX_BRACKET_RE T_135 (sub FIX_QUOTE_RE T_135 text)).
Proof.
  intros text.
  assert (H1 : (2 <= length text)%nat) by (simpl; lia).
  assert (H2 : no_cjk text = true) by reflexivity.
  split; [exact H1|]. split; [exact H2|].
  exact (spacing_text_no_cjk text H1 H2).
Defined.

(** ** Text that is spaced already *)

Lemma sub_unmatched (re : regex) (tpl : template) (text : str) :
  (forall pre x rest cs, text = pre ++ x ++ rest -> ~ matches re x [] cs) ->
  sub re tpl text = text.
Proof.
  intros K.
  assert (H : forall s pre, text = pre ++ s -> sub re tpl s = s).
  { induction s as [|c s IH]; intros pre E.
    - apply sub_nil, match_at_none; intros x rest cs Ex M.
      apply (K pre x rest cs); [rewrite E, Ex; reflexivity|exact M].
    - rewrite sub_copy.
      + rewrite (IH (pre ++ [c])); [reflexivity|].
        rewrite E, <- app_assoc; reflexivity.
      + apply match_at_none; intros x rest cs Ex M.
        apply (K pre x rest cs); [rewrite E, Ex; reflexivity|exact M]. }
  exact (H text [] eq_refl).
Qed.

Lemma settled_tail (a : Z) (s : str) : settled (a :: s) = true -> settled s = true.
Proof.
  destruct s as [|v s]; [reflexivity|].
  intros H.
  change (settled (a :: v :: s))
    with (negb (in_cls CJK a && half_after v) &&
          negb (half_before a && in_cls CJK v) &&
          match s with
          | [] => true
          | w :: _ => negb (in_cls CJK a && in_cls SYMBOL v && in_cls ALNUM w)
          end && settled (v :: s)) in H.
  apply andb_prop in H as [_ H]; exact H.
Qed.

Lemma settled_suffix (pre s : str) : settled (pre ++ s) = true -> settled s = true.
Proof.
  induction pre as [|a pre IH]; [auto|].
  intros H; apply IH, (settled_tail a); exact H.
Qed.

Lemma settled_pair (pre : str) (u v : Z) (post : str) :
  settled (pre ++ u :: v :: post) = true ->
  in_cls CJK u && half_after v = false /\
  half_before u && in_cls CJK v = false.
Proof.
  intros H; apply settled_suffix in H.
  change (settled (u :: v :: post))
    with (negb (in_cls CJK u && half_after v) &&
          negb (half_before u && in_cls CJK v) &&
          match post with
          | [] => true
          | w :: _ => negb (in_cls CJK u && in_cls SYMBOL v && in_cls ALNUM w)
          end && settled (v :: post)) in H.
  apply andb_prop in H as [H _]; apply andb_prop in H as [H _].
  apply andb_prop in H as [H1 H2].
  apply negb_true_iff in H1, H2; auto.
Qed.

Lemma settled_triple (u v w : Z) (post : str) :
  settled (u :: v :: w :: post) = true ->
  in_cls CJK u && in_cls SYMBOL v && in_cls ALNUM w = false.
Proof.
  intros H.
  change (settled (u :: v :: w :: post))
    with (negb (in_cls CJK u && half_after v) &&
          negb (half_before u && in_cls CJK v) &&
          negb (in_cls CJK u && in_cls SYMBOL v && in_cls ALNUM w) &&
          settled (v :: w :: post)) in H.
  apply andb_prop in H as [H _]; apply andb_prop in H as [_ H].
  apply negb_true_iff in H; exact H.
Qed.

Lemma no_opening_app (O : list item) (x y : str) :
  no_opening O (x ++ y) = no_opening O x && no_opening O y.
Proof. apply forallb_app. Qed.

Lemma no_opening_run (O O' : list item) (x : str) :
  (forall c, in_cls O' c = true -> in_cls O c = true) ->
  forallb (atom_match (Set_ O')) x = true -> (1 <= length x)%nat ->
  no_opening O x = false.
Proof.
  intros K H L; destruct x as [|c x]; [simpl in L; lia|].
  simpl in H; apply andb_prop in H as [H _].
  unfold no_opening; cbn [forallb]; rewrite (K _ H); reflexivity.
Qed.

Lemma bracket_open_is_opening (c : Z) :
  in_cls BRACKET_OPEN c = true -> in_cls QUOTE_OPEN c = true.
Proof. intros H; solve_cls. Qed.

Lemma operator_half (o : Z) :
  in_cls OPERATOR o = true -> half_after o = true /\ half_before o = true.
Proof.
  unfold OPERATOR, in_cls; cbn [existsb in_item]; intros H.
  repeat (apply orb_prop in H as [H|H]); try discriminate;
    apply Z.eqb_eq in H; subst o; split; reflexivity.
Qed.

(** Closing a goal from the two facts [P] and [Q] of [settled_pair] and
    the classes of the two characters. *)
Ltac clash P Q :=
  first
    [ solve [ repeat match goal with
                     | H : in_cls OPERATOR ?o = true |- _ =>
                         let A := fresh in let B := fresh in
                         destruct (operator_half o H) as [A B];
                         unfold half_after in A; unfold half_before in B;
                         clear H
                     end;
              repeat match goal with
                     | H : _ = true |- _ => rewrite ?H in P; rewrite ?H in Q; clear H
                     end;
              rewrite ?orb_true_r, ?orb_true_l, ?andb_true_r, ?andb_true_l in P;
              rewrite ?orb_true_r, ?orb_true_l, ?andb_true_r, ?andb_true_l in Q;
              first [discriminate P | discriminate Q] ]
    | solve_cls ].

Ltac by_pair Hs :=
  match type of Hs with
  | settled (?u :: ?v :: ?post) = true =>
      let P := fresh in let Q := fresh in
      destruct (settled_pair [] u v post Hs) as [P Q];
      unfold half_after, half_before in P, Q; clear Hs;
      repeat match goal with
             | H : no_opening _ _ = true |- _ => clear H
             end;
      clash P Q
  | settled (?pre ++ ?u :: ?v :: ?post) = true =>
      let P := fresh in let Q := fresh in
      destruct (settled_pair pre u v post Hs) as [P Q];
      unfold half_after, half_before in P, Q; clear Hs;
      repeat match goal with
             | H : forallb _ _ = true |- _ => clear H
             | H : (_ <= _)%nat |- _ => clear H
             | H : no_opening _ _ = true |- _ => clear H
             end;
      clash P Q
  end.

(** Closing a goal from [Ho : no_opening QUOTE_OPEN x = true] and a quote
    or apostrophe of [x]. *)
Ltac by_opening Ho :=
  unfold no_opening in Ho; cbn [app forallb] in Ho;
  match goal with
  | H : in_cls QUOTE _ = true |- _ => clear - Ho H; solve_cls
  | H : (_ =? 39) = true |- _ => clear - Ho H; solve_cls
  end.

(** None of the thirteen patterns matches inside a calm text. *)
Lemma calm_unmatched :
  Forall (fun re => forall pre x rest cs,
            calm (pre ++ x ++ rest) = true -> ~ matches re x [] cs)
         cjk_patterns.
Proof.
  unfold cjk_patterns; repeat (apply Forall_cons; [|]); [..|apply Forall_nil];
    intros pre x rest cs H M;
    unfold calm in H; rewrite !no_opening_app in H;
    apply andb_prop in H as [Ho Hs];
    apply andb_prop in Ho as [_ Ho]; apply andb_prop in Ho as [Ho _];
    apply settled_suffix in Hs;
    unfold_patterns M;
    invert_matches; cbn [atom_match] in *;
    repeat rewrite <- app_assoc in Hs; cbn [app] in Hs.
  - by_opening Ho.
  - by_opening Ho.
  - by_opening Ho.
  - by_pair Hs.
  - by_pair Hs.
  - by_pair Hs.
  - apply settled_tail in Hs; by_pair Hs.
  - rewrite !no_opening_app in Ho.
    apply andb_prop in Ho as [_ Ho]; apply andb_prop in Ho as [Ho _].
    apply andb_prop in Ho as [Ho _].
    match goal with
    | H : forallb (atom_match (Set_ BRACKET_OPEN)) ?x = true,
      L : (1 <= length ?x)%nat |- _ =>
        rewrite (@no_opening_run QUOTE_OPEN BRACKET_OPEN _
                   bracket_open_is_opening H L) in Ho
    end; discriminate.
  - by_pair Hs.
  - by_pair Hs.
  - apply settled_triple in Hs.
    repeat match goal with
           | H : in_cls _ _ = true |- _ => rewrite H in Hs; clear H
           end; discriminate.
  - by_pair Hs.
  - by_pair Hs.
Qed.

Tactic Notation "calm_pattern" integer(n) :=
  let H := fresh in
  pose proof calm_unmatched as H; unfold cjk_patterns in H;
  do n (apply Forall_inv_tail in H); apply Forall_inv in H; exact H.

Lemma calm_sub (re : regex) (tpl : template) (text : str) :
  (forall pre x rest cs,
     calm (pre ++ x ++ rest) = true -> ~ matches re x [] cs) ->
  calm text = true -> sub re tpl text = text.
Proof.
  intros K H; apply sub_unmatched; intros pre x rest cs E.
  apply K with (pre := pre) (rest := rest); rewrite <- E; exact H.
Qed.

Lemma no_opening_sub_fix (O C : list item) (s : str) :
  no_opening O s = true -> sub (fix_re O C) T_135 s = s.
Proof.
  intros H. rewrite <- (app_nil_r s) at 1.
  rewrite fix_re_no_opening by exact H.
  rewrite sub_nil by (apply fix_re_needs_opening; exact I).
  apply app_nil_r.
Qed.

Lemma no_quote_opening_no_bracket (s : str) :
  no_opening QUOTE_OPEN s = true -> no_opening BRACKET_OPEN s = true.
Proof.
  unfold no_opening; apply forallb_impl; intros x Hx.
  apply negb_true_iff in Hx; apply negb_true_iff.
  destruct (in_cls BRACKET_OPEN x) eqn:E; [|reflexivity].
  rewrite (bracket_open_is_opening _ E) in Hx; discriminate.
Qed.

(** X3. A text of at least two characters without quote, apostrophe or
    opening bracket, in which no CJK character touches a character that
    one of the patterns would space it from, is only stripped: no
    substitution changes it. *)
Theorem spacing_text_settled (text : str) :
  (2 <= length text)%nat -> no_opening QUOTE_OPEN text = true ->
  settled text = true ->
  spacing_text text = strip text.
Proof.
  intros Hlen Ho Hs.
  assert (Hc : calm text = true) by (unfold calm; rewrite Ho, Hs; reflexivity).
  rewrite (spacing_text_rules _ Hlen).
  unfold rules, before_brackets, collapse, single_sided, after_brackets;
    cbv zeta.
  rewrite (@calm_sub CJK_QUOTE_RE T_1_2 text) by (assumption || calm_pattern 0).
  rewrite (@calm_sub QUOTE_CJK_RE T_1_2 text) by (assumption || calm_pattern 1).
  change FIX_QUOTE_RE with (fix_re QUOTE_OPEN QUOTE_CLOSE).
  rewrite (no_opening_sub_fix QUOTE_OPEN QUOTE_CLOSE text Ho).
  rewrite (@calm_sub FIX_SINGLE_QUOTE_RE T_134 text) by (assumption || calm_pattern 2).
  rewrite (@calm_sub CJK_HASH_RE T_1_2 text) by (assumption || calm_pattern 3).
  rewrite (@calm_sub HASH_CJK_RE T_1_3 text) by (assumption || calm_pattern 4).
  rewrite (@calm_sub CJK_OPERATOR_ANS_RE T_1_2_3 text) by (assumption || calm_pattern 5).
  rewrite (@calm_sub ANS_OPERATOR_CJK_RE T_1_2_3 text) by (assumption || calm_pattern 6).
  rewrite (@calm_sub CJK_BRACKET_CJK_RE T_1_2_4 text) by (assumption || calm_pattern 7).
  rewrite text_eqb_refl.
  rewrite (@calm_sub CJK_BRACKET_RE T_1_2 text) by (assumption || calm_pattern 8).
  rewrite (@calm_sub BRACKET_CJK_RE T_1_2 text) by (assumption || calm_pattern 9).
  change FIX_BRACKET_RE with (fix_re BRACKET_OPEN BRACKET_CLOSE).
  rewrite (no_opening_sub_fix BRACKET_OPEN BRACKET_CLOSE text
             (no_quote_opening_no_bracket text Ho)).
  rewrite (@calm_sub FIX_SYMBOL_RE T_12_3 text) by (assumption || calm_pattern 10).
  rewrite (@calm_sub CJK_ANS_RE T_1_2 text) by (assumption || calm_pattern 11).
  rewrite (@calm_sub ANS_CJK_RE T_1_2 text) by (assumption || calm_pattern 12).
  reflexivity.
Qed.

Lemma spacing_text_settled_witness :
  (* a CJK word, a hash tag, a comma, a letter, a CJK character, a
     full-width comma, a letter; blanks at both ends *)
  let text := [0x20; 0x4f60; 0x597d; 0x20; 0x23; 0x77; 0x2c; 0x20; 0x62; 0x20;
               0x4e2d; 0xff0c; 0x62; 0x20] in
  (2 <= length text)%nat /\ no_opening QUOTE_OPEN text = true /\
  settled text = true /\ spacing_text text = strip text.
Proof.
  intros text.
  assert (H1 : (2 <= length text)%nat) by (simpl; lia).
  assert (H2 : no_opening QUOTE_OPEN text = true) by reflexivity.
  assert (H3 : settled text = true) by reflexivity.
  split; [exact H1|]. split; [exact H2|]. split; [exact H3|].
  exact (spacing_text_settled text H1 H2 H3).
Defined.

(** ** Running the pipeline on its own output *)

Lemma windows_suffix (P : str -> bool) (pre : str) (c : Z) (s : str) :
  windows P (pre ++ c :: s) = true -> P (c :: s) = true.
Proof.
  induction pre as [|a pre IH]; cbn [app windows]; intros H;
    apply andb_prop in H as [H1 H2]; auto.
Qed.


Lemma bracket_open_after_cjk (c : Z) :
  in_cls BRACKET_OPEN c = true -> in_cls BRACKET_AFTER_CJK c = true.
Proof. intros H; solve_cls. Qed.

(** None of the thirteen patterns matches inside a text that is settled,
    also towards quotes. *)
Lemma spaced_unmatched :
  Forall (fun re => forall pre x rest cs,
            settled (pre ++ x ++ rest) = true ->
            windows quote_window (pre ++ x ++ rest) = true ->
            ~ matches re x [] cs)
         cjk_patterns.
Proof.
  unfold cjk_patterns; repeat (apply Forall_cons; [|]); [..|apply Forall_nil];
    intros pre x rest cs Hs Hq M;
    apply settled_suffix in Hs;
    unfold_patterns M;
    invert_matches; cbn [atom_match] in *;
    repeat rewrite <- app_assoc in Hs; cbn [app] in Hs;
    repeat rewrite <- app_assoc in Hq; cbn [app] in Hq.
  - apply windows_suffix in Hq; cbn [quote_window] in Hq.
    repeat match goal with
           | H : in_cls _ _ = true |- _ => rewrite H in Hq; clear H
           end; discriminate.
  - apply windows_suffix in Hq; cbn [quote_window] in Hq.
    match goal with
    | H : in_cls CJK_OF_QUOTE_CJK _ = true |- _ => apply quote_cjk_is_cjk in H
    end.
    repeat match goal with
           | H : in_cls _ _ = true |- _ => rewrite H in Hq; clear H
           end; rewrite andb_false_r in Hq; discriminate.
  - apply windows_suffix in Hq; cbn [quote_window] in Hq.
    repeat match goal with
           | H : in_cls _ _ = true |- _ => rewrite H in Hq; clear H
           | H : (_ =? _) = true |- _ => rewrite H in Hq; clear H
           end; rewrite !andb_false_r in Hq; discriminate.
  - by_pair Hs.
  - by_pair Hs.
  - by_pair Hs.
  - apply settled_tail in Hs; by_pair Hs.
  - match goal with
    | H : forallb (atom_match (Set_ BRACKET_OPEN)) ?x = true,
      L : (1 <= length ?x)%nat |- _ =>
        destruct x as [|o x]; [simpl in L; lia|];
        cbn [forallb atom_match] in H; apply andb_prop in H as [H _];
        apply bracket_open_after_cjk in H; clear L
    end.
    cbn [app] in Hs; by_pair Hs.
  - by_pair Hs.
  - by_pair Hs.
  - apply settled_triple in Hs.
    repeat match goal with
           | H : in_cls _ _ = true |- _ => rewrite H in Hs; clear H
           end; discriminate.
  - by_pair Hs.
  - by_pair Hs.
Qed.

Tactic Notation "spaced_pattern" integer(n) :=
  let H := fresh in
  pose proof spaced_unmatched as H; unfold cjk_patterns in H;
  do n (apply Forall_inv_tail in H); apply Forall_inv in H; exact H.



(** Without quote, apostrophe or opening bracket, settled text is
    correctly spaced. *)
Lemma calm_spaced (t : str) : calm t = true -> spaced t = true.
Proof.
  unfold calm, spaced; intros H; apply andb_prop in H as [Ho Hs].
  rewrite Hs; cbn [andb].
  change FIX_QUOTE_RE with (fix_re QUOTE_OPEN QUOTE_CLOSE).
  change FIX_BRACKET_RE with (fix_re BRACKET_OPEN BRACKET_CLOSE).
  rewrite (no_opening_sub_fix QUOTE_OPEN QUOTE_CLOSE t Ho).
  rewrite (no_opening_sub_fix BRACKET_OPEN BRACKET_CLOSE t
             (no_quote_opening_no_bracket t Ho)).
  rewrite !text_eqb_refl, !andb_true_r.
  clear Hs; induction t as [|u t IH]; [reflexivity|].
  unfold no_opening in Ho; cbn [forallb] in Ho; apply andb_prop in Ho as [Hu Ht].
  cbn [windows]; rewrite (IH Ht), andb_true_r.
  destruct t as [|v t]; [reflexivity|].
  cbn [forallb] in Ht; apply andb_prop in Ht as [Hv Ht].
  assert (Qu : in_cls QUOTE u = false) by (clear - Hu; solve_cls).
  assert (Qv : in_cls QUOTE v = false) by (clear - Hv; solve_cls).
  cbn [quote_window]; rewrite Qu, Qv, andb_false_r; cbn [andb negb].
  destruct t as [|w t]; [reflexivity|].
  destruct t as [|x t]; [reflexivity|].
  cbn [forallb] in Ht; apply andb_prop in Ht as [Hw _].
  assert (Qw : (w =? 0x27) = false) by (clear - Hw; solve_cls).
  rewrite Qw, andb_false_r; reflexivity.
Qed.



(** ** No doubled whitespace *)

Lemma quote_open_visible (x : Z) : in_cls QUOTE_OPEN x = true -> isspace x = false.
Proof. intros H; apply delimiter_not_space; auto. Qed.

Lemma quote_close_visible (x : Z) : in_cls QUOTE_CLOSE x = true -> isspace x = false.
Proof. intros H; apply delimiter_not_space; auto. Qed.

Lemma single_spaced_weaken (b : bool) (s : str) :
  single_spaced b s = true -> single_spaced false s = true.
Proof.
  destruct s as [|x s]; [reflexivity|]; cbn [single_spaced].
  destruct b, (isspace x); simpl; intros H; (discriminate || exact H).
Qed.

Lemma single_spaced_app (b : bool) (l m : str) :
  single_spaced b (l ++ m) = true ->
  single_spaced b l = true /\ single_spaced false m = true.
Proof.
  revert b; induction l as [|x l IH]; intros b H; cbn [app single_spaced] in *.
  - split; [reflexivity|exact (single_spaced_weaken _ _ H)].
  - apply andb_prop in H as [Hx H]; rewrite Hx; simpl; apply IH, H.
Qed.

Lemma single_spaced_drop_run (b : bool) (w s : str) (y : Z) :
  isspace y = false ->
  single_spaced b (w ++ y :: s) = true -> single_spaced false s = true.
Proof.
  intros Hy H; apply single_spaced_app in H as [_ H].
  cbn [single_spaced] in H; rewrite Hy in H; exact H.
Qed.

Lemma edit_single_spaced (p : Z) (s t : str) :
  edit p s t ->
  forall b, (isspace p = true -> b = true) ->
  single_spaced b s = true -> single_spaced (isspace p) t = true.
Proof.
  induction 1 as [p|p x s t H IH|p y s t Hp Hy H IH|p w s t Hp Hw H IH
                  |p w y s t Hw Hy H IH]; intros b Hb Hs.
  - reflexivity.
  - cbn [single_spaced] in *; apply andb_prop in Hs as [Hx Hs].
    rewrite (IH _ (fun E => E) Hs), andb_true_r.
    destruct (isspace p); [rewrite (Hb eq_refl) in Hx; exact Hx|reflexivity].
  - unfold nonspace in Hp, Hy; apply negb_true_iff in Hp, Hy.
    cbn [single_spaced] in *; rewrite Hp, Hy.
    change (isspace 32) with true; cbn [andb negb].
    apply andb_prop in Hs as [_ Hs]; rewrite Hy in Hs.
    assert (IH' := IH false ltac:(rewrite Hy; discriminate) Hs).
    rewrite Hy in IH'; exact IH'.
  - cbn [single_spaced] in Hs; apply andb_prop in Hs as [_ Hs]; rewrite Hw in Hs.
    apply (IH true); auto.
  - pose proof (quote_close_visible _ Hy) as Hy'.
    cbn [single_spaced]; rewrite Hy', andb_false_r; cbn [andb negb].
    assert (IH' := IH false ltac:(rewrite Hy'; discriminate)
                      (@single_spaced_drop_run b w s y Hy' Hs)).
    rewrite Hy' in IH'; exact IH'.
Qed.

Lemma sub_single_spaced (re : regex) (tpl : template) (s : str) :
  edits re tpl -> single_spaced false s = true ->
  single_spaced false (sub re tpl s) = true.
Proof.
  intros K Hs.
  apply (@edit_single_spaced 0x41 s _ (sub_edit K s 0x41) false);
    [discriminate|exact Hs].
Qed.

Lemma single_spaced_prefix (b : bool) (m r : str) :
  single_spaced b (m ++ r) = true -> single_spaced b m = true.
Proof. intros H; exact (proj1 (@single_spaced_app b m r H)). Qed.

Lemma strip_single_spaced (s : str) :
  single_spaced false s = true -> single_spaced false (strip s) = true.
Proof.
  destruct (strip_split s) as (l & r & Hs & _ & _); intros H.
  rewrite Hs in H; apply single_spaced_app in H as [_ H].
  exact (@single_spaced_prefix false _ r H).
Qed.

Lemma rules_single_spaced (text : str) :
  single_spaced false text = true -> single_spaced false (rules text) = true.
Proof.
  intros H.
  assert (S : forall re tpl s, edits re tpl -> single_spaced false s = true ->
                               single_spaced false (sub re tpl s) = true)
    by (intros; apply sub_single_spaced; assumption).
  rewrite rules_general.
  unfold before_general, before_brackets, collapse, single_sided; cbv zeta.
  apply S; [exact edits_ANS_CJK|].
  apply S; [exact edits_CJK_ANS|].
  apply S; [exact edits_FIX_SYMBOL|].
  apply S; [exact edits_FIX_BRACKET|].
  match goal with |- context [if ?b then _ else _] => destruct b end;
    repeat (apply S;
            [first [ exact edits_BRACKET_CJK | exact edits_CJK_BRACKET
                   | exact edits_CJK_BRACKET_CJK | exact edits_ANS_OPERATOR_CJK
                   | exact edits_CJK_OPERATOR_ANS | exact edits_HASH_CJK
                   | exact edits_CJK_HASH | exact edits_FIX_SINGLE_QUOTE
                   | exact edits_FIX_QUOTE | exact edits_QUOTE_CJK
                   | exact edits_CJK_QUOTE ]|]);
    exact H.
Qed.

(** X4. A text without two whitespace characters in a row gets none: no
    substitution puts a space next to whitespace. *)
Theorem spacing_text_single_spaced (text : str) :
  single_spaced false text = true ->
  single_spaced false (spacing_text text) = true.
Proof.
  intros H; unfold spacing_text.
  destruct (length text <? 2)%nat; [exact H|].
  change (single_spaced false (strip (rules text)) = true).
  apply strip_single_spaced, rules_single_spaced, H.
Qed.

Lemma spacing_text_single_spaced_witness :
  let text := [0x20; 0x4e2d; 0x61; 0x20; 0x28; 0x20; 0x62; 0x29; 0x4e2d] in
  single_spaced false text = true /\
  single_spaced false (spacing_text text) = true.
Proof.
  intros text.
  assert (H : single_spaced false text = true) by reflexivity.
  split; [exact H | exact (spacing_text_single_spaced text H)].
Defined.

(** ** How much longer the output can be *)

Lemma adjacent_mono (b : bool) (s : str) :
  (adjacent false s <= adjacent b s)%nat.
Proof. destruct s as [|x s]; cbn [adjacent]; [lia|]. destruct b, (nonspace x); simpl; lia. Qed.

Lemma adjacent_app (b : bool) (l m : str) :
  (adjacent b l + adjacent false m <= adjacent b (l ++ m))%nat.
Proof.
  revert b; induction l as [|x l IH]; intros b; cbn [app adjacent].
  - apply adjacent_mono.
  - specialize (IH (nonspace x)); lia.
Qed.

Lemma adjacent_le_length (b : bool) (s : str) :
  (adjacent b s <= length s)%nat.
Proof.
  revert b; induction s as [|x s IH]; intros b; cbn [adjacent length]; [lia|].
  specialize (IH (nonspace x)); destruct (b && nonspace x); lia.
Qed.

Lemma adjacent_after_run (w s : str) (y : Z) (b : bool) :
  nonspace y = true ->
  (length s + adjacent true s + 1
   <= length (w ++ y :: s) + adjacent b (w ++ y :: s))%nat.
Proof.
  intros Hy; revert b; induction w as [|w0 w IH]; intros b;
    cbn [app adjacent length].
  - rewrite Hy; lia.
  - specialize (IH (nonspace w0)); lia.
Qed.

Lemma edit_measure (p : Z) (s t : str) :
  edit p s t ->
  forall bi,
    (length t + adjacent (nonspace p) t
     <= length s + adjacent bi s + (if nonspace p && negb bi then 1 else 0))%nat.
Proof.
  induction 1 as [p|p x s t H IH|p y s t Hp Hy H IH|p w s t Hp Hw H IH
                  |p w y s t Hw Hy H IH]; intros bi.
  - simpl; lia.
  - cbn [adjacent length]; specialize (IH (nonspace x)).
    rewrite andb_negb_r in IH.
    destruct (nonspace p), bi, (nonspace x); cbn [andb negb] in *; lia.
  - cbn [adjacent length]; specialize (IH true).
    rewrite Hp, Hy in *; change (nonspace 32) with false.
    destruct bi; cbn [andb negb] in *; lia.
  - assert (Hp' : nonspace p = true)
      by (unfold nonspace; rewrite (quote_open_visible _ Hp); reflexivity).
    assert (Hw' : nonspace w = false) by (unfold nonspace; rewrite Hw; reflexivity).
    cbn [adjacent length]; specialize (IH false); rewrite Hp' in *.
    rewrite Hw', andb_false_r.
    destruct bi; cbn [andb negb] in *; lia.
  - assert (Hy' : nonspace y = true)
      by (unfold nonspace; rewrite (quote_close_visible _ Hy); reflexivity).
    specialize (IH true); rewrite Hy' in IH; cbn [andb negb] in IH.
    destruct w as [|w0 w].
    + cbn [app adjacent length]; rewrite Hy'.
      destruct (nonspace p), bi; cbn [andb negb] in *; lia.
    + pose proof (@adjacent_after_run w s y (nonspace w0) Hy') as A.
      cbn [forallb] in Hw; apply andb_prop in Hw as [Hw0 _].
      assert (Hw' : nonspace w0 = false)
        by (unfold nonspace; rewrite Hw0; reflexivity).
      rewrite Hw' in A.
      cbn [app adjacent length]; rewrite Hy', Hw', andb_false_r.
      destruct (nonspace p); cbn [andb negb] in *; lia.
Qed.

Lemma sub_spread (re : regex) (tpl : template) (s : str) :
  edits re tpl -> (spread (sub re tpl s) <= spread s)%nat.
Proof.
  intros K; pose proof (edit_measure (sub_edit K s 0x20) false) as H.
  change (nonspace 32) with false in H; cbn [andb] in H.
  unfold spread; lia.
Qed.

Lemma strip_spread (s : str) : (spread (strip s) <= spread s)%nat.
Proof.
  destruct (strip_split s) as (l & r & Hs & _ & _).
  unfold spread; rewrite Hs at 3 4.
  rewrite !length_app.
  pose proof (adjacent_app false l (strip s ++ r)).
  pose proof (adjacent_app false (strip s) r).
  lia.
Qed.

Lemma rules_spread (text : str) : (spread (rules text) <= spread text)%nat.
Proof.
  assert (S : forall re tpl s, edits re tpl -> (spread s <= spread text)%nat ->
                               (spread (sub re tpl s) <= spread text)%nat)
    by (intros re tpl s K H; pose proof (sub_spread s K); lia).
  rewrite rules_general.
  unfold before_general, before_brackets, collapse, single_sided; cbv zeta.
  apply S; [exact edits_ANS_CJK|].
  apply S; [exact edits_CJK_ANS|].
  apply S; [exact edits_FIX_SYMBOL|].
  apply S; [exact edits_FIX_BRACKET|].
  match goal with |- context [if ?b then _ else _] => destruct b end;
    repeat (apply S;
            [first [ exact edits_BRACKET_CJK | exact edits_CJK_BRACKET
                   | exact edits_CJK_BRACKET_CJK | exact edits_ANS_OPERATOR_CJK
                   | exact edits_CJK_OPERATOR_ANS | exact edits_HASH_CJK
                   | exact edits_CJK_HASH | exact edits_FIX_SINGLE_QUOTE
                   | exact edits_FIX_QUOTE | exact edits_QUOTE_CJK
                   | exact edits_CJK_QUOTE ]|]);
    lia.
Qed.

(** X5. The output is longer than the input by at most one character
    for each visible character of the input that directly follows a
    visible character: it is never twice as long. *)
Theorem spacing_text_length (text : str) :
  (length (spacing_text text) <= length text + adjacent false text)%nat /\
  (length (spacing_text text) <= 2 * length text - 1)%nat.
Proof.
  assert (H : (length (spacing_text text) <= length text + adjacent false text)%nat).
  { unfold spacing_text.
    destruct (length text <? 2)%nat; [lia|].
    change (length (strip (rules text)) <= spread text)%nat.
    pose proof (strip_spread (rules text)); pose proof (rules_spread text).
    unfold spread in *; lia. }
  split; [exact H|].
  destruct text as [|x text]; [simpl in *; lia|].
  cbn [adjacent length] in *.
  pose proof (adjacent_le_length (nonspace x) text); simpl in *; lia.
Qed.

(** ** The rules on the shortest texts they apply to *)

Lemma if_same (A : Type) (b : bool) (x : A) : (if b then x else x) = x.
Proof. destruct b; reflexivity. Qed.

(** [eval_pair] for texts of several characters: a test on a character is
    settled from the hypotheses on that character alone, and a test the
    hypotheses leave open stops the evaluation. *)
Ltac keep_only v :=
  repeat match goal with
         | H : _ ?w = _ |- _ =>
             lazymatch w with
             | v => fail
             | _ => clear H
             end
         end.

Ltac decide_at t v :=
  let E := fresh "E" in
  first [ assert (E : t = true) by (keep_only v; solve_cls); rewrite E; clear E
        | assert (E : t = false) by (keep_only v; solve_cls); rewrite E; clear E ].

Ltac eval_tests_at :=
  repeat (eval_pattern_step;
    match goal with
    | |- context [in_cls ?X ?v] => decide_at (in_cls X v) v
    | |- context [isspace ?v] => decide_at (isspace v) v
    | |- context [nonspace ?v] => decide_at (nonspace v) v
    | |- context [Z.eqb ?v ?k] => decide_at (Z.eqb v k) v
    end);
  eval_pattern_step.

Ltac eval_stage_at :=
  match goal with
  | |- context [sub ?R ?T (@cons Z ?x ?l)] =>
      let r := fresh "r" in
      let E := fresh "E" in
      evar (r : str);
      assert (E : sub R T (x :: l) = r) by (subst r; eval_tests_at; reflexivity);
      subst r; rewrite E; clear E
  | |- context [strip (@cons Z ?x ?l)] =>
      let r := fresh "r" in
      let E := fresh "E" in
      evar (r : str);
      assert (E : strip (x :: l) = r) by (subst r; eval_tests_at; reflexivity);
      subst r; rewrite E; clear E
  end.

Ltac eval_text :=
  rewrite spacing_text_rules by (simpl; lia);
  unfold rules, before_brackets, collapse, single_sided, after_brackets;
  cbv zeta;
  repeat (eval_stage_at; rewrite ?text_eqb_refl;
          try match goal with
              | |- context [if _ then ?t else ?t] => rewrite if_same
              end);
  reflexivity.

(** X6. A quote or apostrophe after a CJK character is set off by a space;
    before a CJK character it is set off unless the character is in one of
    the two radical ranges U+2E80 to U+2EFF and U+2F00 to U+2FDF, which
    [QUOTE_CJK_RE] leaves out. *)
Theorem quote_pair_spacing (c q : Z) :
  in_cls CJK c = true -> in_cls QUOTE q = true ->
  spacing_text [c; q] = [c; 0x20; q] /\
  spacing_text [q; c] = if in_cls RADICALS c then [q; c] else [q; 0x20; c].
Proof.
  intros Hc Hq; split; [exact (cjk_then_quote c q Hc Hq)|].
  destruct (in_cls RADICALS c) eqn:E.
  - exact (quote_then_radical c q E Hq).
  - rewrite CJK_split, E in Hc; exact (quote_then_cjk c q Hc Hq).
Qed.

Lemma quote_pair_spacing_witness :
  let c := 0x2f00 in            (* KANGXI RADICAL ONE *)
  let q := 0x27 in
  in_cls CJK c = true /\ in_cls QUOTE q = true /\
  spacing_text [c; q] = [c; 0x20; q] /\ spacing_text [q; c] = [q; c].
Proof.
  intros c q.
  assert (H1 : in_cls CJK c = true) by reflexivity.
  assert (H2 : in_cls QUOTE q = true) by reflexivity.
  split; [exact H1|]. split; [exact H2|].
  exact (quote_pair_spacing c q H1 H2).
Defined.

(** X7. A CJK character between two quotes stays as it is: the spaces the
    two quote substitutions put around it are taken out again by the quote
    cleanup. *)
Theorem quoted_cjk_unchanged (c q q' : Z) :
  in_cls CJK c = true -> in_cls QUOTE q = true -> in_cls QUOTE q' = true ->
  spacing_text [q; c; q'] = [q; c; q'].
Proof.
  intros Hc Hq Hq'; destruct (in_cls CJK_OF_QUOTE_CJK c) eqn:E; eval_text.
Qed.

Lemma quoted_cjk_unchanged_witness :
  let c := 0x4e2d in
  in_cls CJK c = true /\ in_cls QUOTE 0x22 = true /\ in_cls QUOTE 0x27 = true /\
  sub QUOTE_CJK_RE T_1_2 (sub CJK_QUOTE_RE T_1_2 [0x22; c; 0x27])
  = [0x22; 0x20; c; 0x20; 0x27] /\
  spacing_text [0x22; c; 0x27] = [0x22; c; 0x27].
Proof.
  intros c.
  assert (H1 : in_cls CJK c = true) by reflexivity.
  assert (H2 : in_cls QUOTE 0x22 = true) by reflexivity.
  assert (H3 : in_cls QUOTE 0x27 = true) by reflexivity.
  split; [exact H1|]. split; [exact H2|]. split; [exact H3|].
  split; [reflexivity|].
  exact (quoted_cjk_unchanged c 0x22 0x27 H1 H2 H3).
Defined.

(** X8. A number sign between a CJK character and a visible character
    stays with the character after it when the CJK character comes first,
    and with the character before it when the CJK character comes last. *)
Theorem hash_spacing (c x : Z) :
  in_cls CJK c = true -> nonspace x = true ->
  spacing_text [c; 0x23; x] = [c; 0x20; 0x23; x] /\
  (in_cls CJK x = false -> spacing_text [x; 0x23; c] = [x; 0x23; 0x20; c]).
Proof.
  intros Hc Hx; split; [|intros Hn]; eval_text.
Qed.

Lemma hash_spacing_witness :
  let c := 0x4e2d in
  let x := 0x77 in
  in_cls CJK c = true /\ nonspace x = true /\ in_cls CJK x = false /\
  spacing_text [c; 0x23; x] = [c; 0x20; 0x23; x] /\
  spacing_text [x; 0x23; c] = [x; 0x23; 0x20; c].
Proof.
  intros c x.
  assert (H1 : in_cls CJK c = true) by reflexivity.
  assert (H2 : nonspace x = true) by reflexivity.
  assert (H3 : in_cls CJK x = false) by reflexivity.
  split; [exact H1|]. split; [exact H2|]. split; [exact H3|].
  split; [exact (proj1 (hash_spacing c x H1 H2))
         |exact (proj2 (hash_spacing c x H1 H2) H3)].
Defined.

(** X9. An operator between a CJK character and a letter or digit gets a
    space on both sides, in either order. *)
Theorem operator_spacing (c o n : Z) :
  in_cls CJK c = true -> in_cls OPERATOR o = true -> in_cls ALNUM n = true ->
  spacing_text [c; o; n] = [c; 0x20; o; 0x20; n] /\
  spacing_text [n; o; c] = [n; 0x20; o; 0x20; c].
Proof.
  intros Hc Ho Hn; split; eval_text.
Qed.

Lemma operator_spacing_witness :
  let c := 0x4e2d in
  in_cls CJK c = true /\ in_cls OPERATOR 0x2b = true /\
  in_cls ALNUM 0x31 = true /\
  spacing_text [c; 0x2b; 0x31] = [c; 0x20; 0x2b; 0x20; 0x31] /\
  spacing_text [0x31; 0x2b; c] = [0x31; 0x20; 0x2b; 0x20; c].
Proof.
  intros c.
  assert (H1 : in_cls CJK c = true) by reflexivity.
  assert (H2 : in_cls OPERATOR 0x2b = true) by reflexivity.
  assert (H3 : in_cls ALNUM 0x31 = true) by reflexivity.
  split; [exact H1|]. split; [exact H2|]. split; [exact H3|].
  exact (operator_spacing c 0x2b 0x31 H1 H2 H3).
Defined.

(** X10. On a text of exactly two characters: a CJK character followed by
    a bracket of the class of [CJK_BRACKET_RE], and a bracket of the class
    of [BRACKET_CJK_RE] followed by a CJK character, come out with one
    space between the two.  (In a longer text the two substitutions are
    skipped when [CJK_BRACKET_CJK_RE] has matched somewhere.) *)
Theorem bracket_pair_spacing (c b : Z) :
  in_cls CJK c = true ->
  (in_cls BRACKET_AFTER_CJK b = true -> spacing_text [c; b] = [c; 0x20; b]) /\
  (in_cls BRACKET_BEFORE_CJK b = true -> spacing_text [b; c] = [b; 0x20; c]).
Proof.
  intros Hc; split; intros Hb; eval_text.
Qed.

Lemma bracket_pair_spacing_witness :
  let c := 0x4e2d in
  in_cls CJK c = true /\
  in_cls BRACKET_AFTER_CJK 0x28 = true /\
  in_cls BRACKET_BEFORE_CJK 0x29 = true /\
  spacing_text [c; 0x28] = [c; 0x20; 0x28] /\
  spacing_text [0x29; c] = [0x29; 0x20; c].
Proof.
  intros c.
  assert (H1 : in_cls CJK c = true) by reflexivity.
  assert (H2 : in_cls BRACKET_AFTER_CJK 0x28 = true) by reflexivity.
  assert (H3 : in_cls BRACKET_BEFORE_CJK 0x29 = true) by reflexivity.
  split; [exact H1|]. split; [exact H2|]. split; [exact H3|].
  split; [exact (proj1 (bracket_pair_spacing c 0x28 H1) H2)
         |exact (proj2 (bracket_pair_spacing c 0x29 H1) H3)].
Defined.

(** X11. Between a CJK character and a letter or digit, a character of the
    SYMBOL class gets its space after it, none before it. *)
Theorem symbol_spacing (c s n : Z) :
  in_cls CJK c = true -> in_cls SYMBOL s = true -> in_cls ALNUM n = true ->
  spacing_text [c; s; n] = [c; s; 0x20; n].
Proof.
  intros Hc Hs Hn; eval_text.
Qed.

Lemma symbol_spacing_witness :
  let c := 0x4e2d in
  in_cls CJK c = true /\ in_cls SYMBOL 0x2c = true /\
  in_cls ALNUM 0x61 = true /\
  spacing_text [c; 0x2c; 0x61] = [c; 0x2c; 0x20; 0x61].
Proof.
  intros c.
  assert (H1 : in_cls CJK c = true) by reflexivity.
  assert (H2 : in_cls SYMBOL 0x2c = true) by reflexivity.
  assert (H3 : in_cls ALNUM 0x61 = true) by reflexivity.
  split; [exact H1|]. split; [exact H2|]. split; [exact H3|].
  exact (symbol_spacing c 0x2c 0x61 H1 H2 H3).
Defined.

(** X12. A bracketed letter or digit between two CJK characters gets one
    space before the opening and one after the closing bracket, none
    inside; the angle brackets are left out because the operator
    substitutions, which come first, take them as operators. *)
Theorem bracketed_between_cjk (c c' o x cl : Z) :
  in_cls CJK c = true -> in_cls CJK c' = true ->
  in_cls BRACKET_OPEN o = true -> in_cls ALNUM x = true ->
  in_cls BRACKET_CLOSE cl = true -> o <> 0x3c -> cl <> 0x3e ->
  spacing_text [c; o; x; cl; c'] = [c; 0x20; o; x; cl; 0x20; c'].
Proof.
  intros Hc Hc' Ho Hx Hcl Hlt Hgt; eval_text.
Qed.

Lemma bracketed_between_cjk_witness :
  let c := 0x4e2d in
  in_cls CJK c = true /\ in_cls BRACKET_OPEN 0x28 = true /\
  in_cls ALNUM 0x61 = true /\ in_cls BRACKET_CLOSE 0x29 = true /\
  0x28 <> 0x3c /\ 0x29 <> 0x3e /\
  spacing_text [c; 0x28; 0x61; 0x29; c] = [c; 0x20; 0x28; 0x61; 0x29; 0x20; c].
Proof.
  intros c.
  assert (H1 : in_cls CJK c = true) by reflexivity.
  assert (H2 : in_cls BRACKET_OPEN 0x28 = true) by reflexivity.
  assert (H3 : in_cls ALNUM 0x61 = true) by reflexivity.
  assert (H4 : in_cls BRACKET_CLOSE 0x29 = true) by reflexivity.
  assert (H5 : 0x28 <> 0x3c) by lia.
  assert (H6 : 0x29 <> 0x3e) by lia.
  split; [exact H1|]. split; [exact H2|]. split; [exact H3|].
  split; [exact H4|]. split; [exact H5|]. split; [exact H6|].
  exact (@bracketed_between_cjk c c 0x28 0x61 0x29 H1 H1 H2 H3 H4 H5 H6).
Defined.

(** * Files *)

(** The three ways [_detect_filepath] returns a path. *)
Lemma detect_filepath_cases (E : Type) (sys : os.env E) (src p : str) :
  _detect_filepath sys src = Some p ->
  src <> [] /\ _is_abs_file sys p = true /\
  (p = src \/
   (startswith src 0x7e = true /\ p = os.expanduser sys src) \/
   (startswith src 0x7e = false /\
    p = os.join sys (os.abspath sys os.curdir) src)).
Proof.
  unfold _detect_filepath, _is_abs_file; destruct src as [|c s]; [discriminate|].
  cbv zeta.
  destruct (os.isabs sys (c :: s) && os.isfile sys (c :: s)) eqn:E1.
  { intros [= <-]; repeat split; [discriminate|exact E1|auto]. }
  destruct (startswith (c :: s) 0x7e) eqn:E2.
  - destruct (os.isabs sys (os.expanduser sys (c :: s)) &&
              os.isfile sys (os.expanduser sys (c :: s))) eqn:E3;
      [|discriminate].
    intros [= <-]; repeat split; [discriminate|exact E3|auto].
  - destruct (os.isabs sys (os.join sys (os.abspath sys os.curdir) (c :: s)) &&
              os.isfile sys (os.join sys (os.abspath sys os.curdir) (c :: s)))
      eqn:E3; [|discriminate].
    intros [= <-]; repeat split; [discriminate|exact E3|auto].
Qed.

(** X13. Whatever the file system, a path that [_detect_filepath] returns
    is absolute and names an existing file, and its argument was not
    empty. *)
Theorem detect_filepath_sound (E : Type) (sys : os.env E) (src p : str) :
  _detect_filepath sys src = Some p ->
  src <> [] /\ os.isabs sys p = true /\ os.isfile sys p = true.
Proof.
  intros H; destruct (detect_filepath_cases sys src H) as (H1 & H2 & _).
  unfold _is_abs_file in H2; apply andb_prop in H2; tauto.
Qed.

Lemma detect_filepath_sound_witness :
  let src := [0x7e; 0x2f; 0x66] in          (* ~/f *)
  _detect_filepath sample_sys src = Some sample_file /\
  src <> [] /\ os.isabs sample_sys sample_file = true /\
  os.isfile sample_sys sample_file = true.
Proof.
  intros src.
  assert (H : _detect_filepath sample_sys src = Some sample_file) by reflexivity.
  split; [exact H|].
  exact (detect_filepath_sound sample_sys src H).
Defined.

(** X14. When none of the three candidate paths (the argument, its
    expansion by [expanduser], the argument joined to the working
    directory) names a file, [spacing] opens no file and returns
    [spacing_text] of its argument. *)
Theorem spacing_of_text (E : Type) (sys : os.env E) (text : str) :
  os.isfile sys text = false ->
  os.isfile sys (os.expanduser sys text) = false ->
  os.isfile sys (os.join sys (os.abspath sys os.curdir) text) = false ->
  spacing sys text = inr (spacing_text text).
Proof.
  intros H1 H2 H3; unfold spacing.
  destruct (_detect_filepath sys text) as [p|] eqn:D; [|reflexivity].
  destruct (detect_filepath_cases sys text D) as (_ & Hp & [->|[[_ ->]|[_ ->]]]);
    unfold _is_abs_file in Hp; apply andb_prop in Hp as [_ Hp]; congruence.
Qed.

Lemma spacing_of_text_witness :
  let text := [0x4e2d; 0x61] in
  os.isfile sample_sys text = false /\
  os.isfile sample_sys (os.expanduser sample_sys text) = false /\
  os.isfile sample_sys (os.join sample_sys (os.abspath sample_sys os.curdir) text)
  = false /\
  spacing sample_sys text = inr (spacing_text text).
Proof.
  intros text.
  assert (H1 : os.isfile sample_sys text = false) by reflexivity.
  assert (H2 : os.isfile sample_sys (os.expanduser sample_sys text) = false)
    by reflexivity.
  assert (H3 : os.isfile sample_sys
                 (os.join sample_sys (os.abspath sample_sys os.curdir) text)
               = false) by reflexivity.
  split; [exact H1|]. split; [exact H2|]. split; [exact H3|].
  exact (spacing_of_text sample_sys text H1 H2 H3).
Defined.

(** X15. When [_detect_filepath] finds a file, the file that [spacing]
    opens is [abspath] of the argument, whichever of the three candidates
    was found: the result is [spacing_text] of what is read there, or the
    exception of the read.  The empty path is taken not to be
    absolute. *)
Theorem spacing_reads_abspath (E : Type) (sys : os.env E) (src p : str) :
  _detect_filepath sys src = Some p -> os.isabs sys [] = false ->
  spacing sys src =
  match os.read sys (os.abspath sys src) with
  | inl e => inl e
  | inr fdata => inr (spacing_text fdata)
  end.
Proof.
  intros D H0; unfold spacing; rewrite D.
  destruct (detect_filepath_cases sys src D) as (_ & Ha & _).
  unfold _is_abs_file in Ha; apply andb_prop in Ha as [Ha _].
  destruct p as [|c p]; [congruence|reflexivity].
Qed.

Lemma spacing_reads_abspath_witness :
  (* ~/f is found as /h/f, and /w/~/f is what is opened *)
  let src := [0x7e; 0x2f; 0x66] in
  _detect_filepath sample_sys src = Some sample_file /\
  os.isabs sample_sys [] = false /\
  os.abspath sample_sys src = [0x2f; 0x77; 0x2f; 0x7e; 0x2f; 0x66] /\
  spacing sample_sys src = inl tt.
Proof.
  intros src.
  assert (H1 : _detect_filepath sample_sys src = Some sample_file) by reflexivity.
  assert (H2 : os.isabs sample_sys [] = false) by reflexivity.
  split; [exact H1|]. split; [exact H2|]. split; [reflexivity|].
  exact (spacing_reads_abspath sample_sys src H1 H2).
Defined.
